(** * Fixed-point reciprocal square root ([fast_rsqrt.c])

    A shallow embedding of the numeric core of [fast_rsqrt.c]: the
    leading-zero count [clz32], the seed table [rsqrt_table], the
    Newton-Raphson step [q16_newton_step], the Q16 reciprocal square root
    [fast_rsqrt] and the distance function [dist3]; further down, the
    console helpers [print_str] and [print_uint] with the trace of
    [write_syscall] calls they leave, the driver [main], and [memcpy] over
    a byte-addressed memory (addresses are integers and do not wrap).

    C values of type [uint32_t] and [uint64_t] are integers of [Z] kept in
    range by an explicit reduction ([u32], [u64]) after every operation that
    can leave the range; [int32_t] arguments are integers of [Z] in
    [-2^31, 2^31). *)

From Stdlib Require Import ZArith List Lia Bool.
From Stdlib Require Ascii String.
Import ListNotations.

Local Open Scope Z_scope.

Module FastRsqrt.

(** ** Machine integers *)

Definition u32 (v : Z) : Z := v mod 2 ^ 32.
Definition u64 (v : Z) : Z := v mod 2 ^ 64.

(** The values of an [int32_t] argument. *)
Definition is_i32 (v : Z) : Prop := - 2 ^ 31 <= v < 2 ^ 31.

(** ** [clz32] *)

(** One line of the binary search of [clz32]:
    [if ((x >> s) == 0) { n += w; x <<= w; }]. *)
Definition clz_step (s w : Z) (st : Z * Z) : Z * Z :=
  let '(n, x) := st in
  if Z.shiftr x s =? 0 then (u32 (n + w), u32 (Z.shiftl x w)) else (n, x).

Definition clz32 (x : Z) : Z :=
  if x =? 0 then 32
  else
    let st := (0, x) in
    let st := clz_step 16 16 st in
    let st := clz_step 24 8 st in
    let st := clz_step 28 4 st in
    let st := clz_step 30 2 st in
    let '(n, x) := st in
    let n := if Z.shiftr x 31 =? 0 then u32 (n + 1) else n in
    n.

(** ** Seed table *)

Definition rsqrt_table : list Z :=
  [ 65536; 46341; 32768; 23170; 16384; 11585; 8192; 5793;
    4096;  2896;  2048;  1448; 1024;   724;  512;  362;
    256;   181;   128;    90;   64;    45;   32;   23;
     16;    11;     8;     6;    4;     3;    2;    1 ].

(** [rsqrt_table[i]]; the source only indexes the table with 0..31. *)
Definition table_at (i : Z) : Z := nth (Z.to_nat i) rsqrt_table 0.

(** ** [q16_newton_step] *)

Definition q16_newton_step (y x : Z) : Z :=
  let y2 := u64 (y * y) in
  let term := u64 (Z.shiftl 3 32 - u64 (x * y2)) in
  let prod := u64 (y * term) in
  u32 (Z.shiftr prod 33).

(** ** [fast_rsqrt] *)

Definition fast_rsqrt (x : Z) : Z :=
  if x =? 0 then 0xFFFFFFFF
  else
    let exp := u32 (31 - clz32 x) in
    let y_base := table_at exp in
    let y_next := if exp <? 31 then table_at (u32 (exp + 1)) else 1 in
    let one_exp := if exp <? 31 then u32 (Z.shiftl 1 exp) else 0 in
    let diff := u64 (x - one_exp) in
    let frac64 := u64 (Z.shiftl diff 16) in
    let frac := u32 (Z.shiftr frac64 exp) in
    let delta := u32 (y_base - y_next) in
    let interp := u64 (delta * frac) in
    let y := u32 (y_base - u32 (Z.shiftr interp 16)) in
    let y := q16_newton_step y x in
    let y := q16_newton_step y x in
    y.

(** The locals [exp], [one_exp] and [frac] of [fast_rsqrt], on the path
    taken by a nonzero argument. *)
Definition rsqrt_exp (x : Z) : Z := u32 (31 - clz32 x).

Definition rsqrt_one_exp (x : Z) : Z :=
  let exp := rsqrt_exp x in
  if exp <? 31 then u32 (Z.shiftl 1 exp) else 0.

Definition rsqrt_frac (x : Z) : Z :=
  let exp := rsqrt_exp x in
  let one_exp := rsqrt_one_exp x in
  let diff := u64 (x - one_exp) in
  let frac64 := u64 (Z.shiftl diff 16) in
  u32 (Z.shiftr frac64 exp).

(** The interpolated seed, the value of [y] before the Newton steps. *)
Definition rsqrt_seed (x : Z) : Z :=
  let exp := rsqrt_exp x in
  let y_base := table_at exp in
  let y_next := if exp <? 31 then table_at (u32 (exp + 1)) else 1 in
  let frac := rsqrt_frac x in
  let delta := u32 (y_base - y_next) in
  let interp := u64 (delta * frac) in
  u32 (y_base - u32 (Z.shiftr interp 16)).

(** ** [dist3] *)

(** The 64-bit sum of squares, before saturation.  An [int32_t] operand is
    converted to [uint64_t] before each multiplication. *)
Definition sum_sq64 (x y z : Z) : Z :=
  u64 (u64 (u64 (u64 x * u64 x) + u64 (u64 y * u64 y)) + u64 (u64 z * u64 z)).

Definition dist3 (x y z : Z) : Z :=
  let sum_sq := sum_sq64 x y z in
  let sum_sq := if sum_sq >? 0xFFFFFFFF then 0xFFFFFFFF else sum_sq in
  let inv_sqrt := fast_rsqrt (u32 sum_sq) in
  let dist := u64 (inv_sqrt * u64 (u32 sum_sq)) in
  u32 (Z.shiftr dist 16).

(** Lines 72-75 of [dist3]: what the function computes from the value of
    [sum_sq] that reaches the call of [fast_rsqrt]. *)
Definition dist3_of_sum (sum_sq : Z) : Z :=
  let inv_sqrt := fast_rsqrt (u32 sum_sq) in
  let dist := u64 (inv_sqrt * u64 (u32 sum_sq)) in
  u32 (Z.shiftr dist 16).

End FastRsqrt.

Import FastRsqrt.

(** * A step-function view of [fast_rsqrt]

    [fast_rsqrt] takes 2^32 arguments but is constant on long runs of them.
    The definitions below cut the domain [1 .. 2^32 - 1] into such runs and
    decide, from the two ends of a run alone, that the function is constant
    on it. *)

Module Pieces.

(** [3ull << 32]. *)
Definition three_q32 : Z := 12884901888.

(** [q16_newton_step] and the interpolated seed with the reductions modulo
    2^32 and 2^64 left out; they agree with the code wherever no
    intermediate value leaves its type. *)
Definition newton_exact (y x : Z) : Z :=
  Z.shiftr (y * (three_q32 - x * (y * y))) 33.

Definition seed_exact (e x : Z) : Z :=
  if e <? 31 then
    let y_base := table_at e in
    let y_next := table_at (e + 1) in
    let frac := Z.shiftr (Z.shiftl (x - Z.shiftl 1 e) 16) e in
    y_base - Z.shiftr ((y_base - y_next) * frac) 16
  else 1.

(** A run [(a, b, v)]: [fast_rsqrt x = v] for [a <= x <= b]. *)
Definition piece : Type := Z * Z * Z.

(** [const_on a b = Some v] when [a] and [b] lie in one exponent bucket and
    the seed, the first Newton step and the second Newton step each take
    the same value at [a] and at [b]. *)
Definition const_on (a b : Z) : option Z :=
  let e := Z.log2 a in
  if negb ((0 <? a) && (a <=? b) && (b <? 4294967296) && (Z.log2 b =? e))
  then None else
  let s := seed_exact e a in
  if negb ((seed_exact e b =? s) && (b * (s * s) <=? three_q32)) then None else
  let y1 := newton_exact s a in
  if negb ((newton_exact s b =? y1) && (y1 <=? 65536)
           && (b * (y1 * y1) <=? three_q32)) then None else
  let y2 := newton_exact y1 a in
  if newton_exact y1 b =? y2 then Some y2 else None.

(** Bisection of [[a, b]] into runs accepted by [const_on]. *)
Fixpoint cover (fuel : nat) (a b : Z) : option (list piece) :=
  match const_on a b with
  | Some v => Some [(a, b, v)]
  | None =>
      match fuel with
      | O => None
      | S fuel' =>
          if a <? b then
            let m := Z.div2 (a + b) in
            match cover fuel' a m, cover fuel' (m + 1) b with
            | Some l1, Some l2 => Some (l1 ++ l2)
            | _, _ => None
            end
          else None
      end
  end.

(** The runs of the [n] buckets starting at exponent [e]. *)
Fixpoint cover_buckets (e : Z) (n : nat) : option (list piece) :=
  match n with
  | O => Some []
  | S n' =>
      match cover 32 (2 ^ e) (2 ^ (e + 1) - 1), cover_buckets (e + 1) n' with
      | Some l1, Some l2 => Some (l1 ++ l2)
      | _, _ => None
      end
  end.

(** [run_check Q o]: the bisection succeeded and its runs pass [Q]. *)
Definition run_check (Q : list piece -> bool) (o : option (list piece)) : bool :=
  match o with
  | Some l => Q l
  | None => false
  end.

(** [tiles f a l b]: the runs of [l] are adjacent, start at [a], end at
    [b], and [f] is constant on each with the recorded value. *)
Fixpoint tiles (f : Z -> Z) (a : Z) (l : list piece) (b : Z) : Prop :=
  match l with
  | [] => a = b + 1
  | (a', b', v) :: l' =>
      a' = a /\ a <= b' /\ (forall x, a <= x <= b' -> f x = v) /\
      tiles f (b' + 1) l' b
  end.

(** The arguments [x] at which [fast_rsqrt (x + 1)] exceeds
    [fast_rsqrt x]: [4^k - 1] for [k = 8 .. 15], and [3 * 2^26 - 1]. *)
Definition rise_points : list Z :=
  [ 65535; 262143; 1048575; 4194303; 16777215; 67108863;
    201326591; 268435455; 1073741823 ].

(** Between two adjacent runs the value does not increase, unless the
    boundary is one of [rise_points]. *)
Fixpoint adj_ok (l : list piece) : bool :=
  match l with
  | (_, b1, v1) :: l' =>
      match l' with
      | (_, _, v2) :: _ =>
          ((v2 <=? v1) || existsb (Z.eqb b1) rise_points) && adj_ok l'
      | [] => true
      end
  | [] => true
  end.

(** No run lies more than 1 above the minimum [m] of the earlier runs. *)
Fixpoint trend_ok (m : Z) (l : list piece) : bool :=
  match l with
  | [] => true
  | (_, _, v) :: l' => (v <=? m + 1) && trend_ok (Z.min m v) l'
  end.

(** On the run, [v^2 * x <= 2^32 < (v + 2)^2 * x]. *)
Definition accurate_on (p : piece) : bool :=
  let '(a, b, v) := p in
  (0 <=? v) && (v * v * b <=? 4294967296)
  && (4294967296 <? (v + 2) * (v + 2) * a).

(** The tolerance of 0.1 percent: [|y^2 * x - 2^32| < 2^32 / 1000] for
    [y = fast_rsqrt x], over the rationals, cleared of the division. *)
Definition within_tolerance (x : Z) : Prop :=
  let y := fast_rsqrt x in
  1000 * Z.abs (y * y * x - 2 ^ 32) < 2 ^ 32.

Definition within_toleranceb (x : Z) : bool :=
  let y := fast_rsqrt x in
  1000 * Z.abs (y * y * x - 2 ^ 32) <? 2 ^ 32.

End Pieces.

Import Pieces.

(** Further checks on a run: the value is positive, and so large that
    [(v * x) >> 16] is positive on the run. *)
Module MorePieces.

Definition positive_on (p : piece) : bool :=
  let '(a, b, v) := p in
  (1 <=? v) && (65536 <=? v * a).

(** The code with every reduction modulo 2^32 or 2^64 left out, local by
    local, to state that no reduction in the code changes a value. *)

(** One line of the binary search of [clz32] over unbounded integers. *)
Definition clz_step_unbounded (s w : Z) (st : Z * Z) : Z * Z :=
  let '(n, x) := st in
  if Z.shiftr x s =? 0 then (n + w, Z.shiftl x w) else (n, x).

(** In [clz32 x] each of the four conditional lines gives what it gives
    over unbounded integers ([n += w] and [x <<= w] drop nothing), and the
    last [n += 1] stays in range. *)
Definition clz_in_range (x : Z) : Prop :=
  let st0 := (0, x) in
  let st1 := clz_step_unbounded 16 16 st0 in
  let st2 := clz_step_unbounded 24 8 st1 in
  let st3 := clz_step_unbounded 28 4 st2 in
  let st4 := clz_step_unbounded 30 2 st3 in
  clz_step 16 16 st0 = st1 /\
  clz_step 24 8 st1 = st2 /\
  clz_step 28 4 st2 = st3 /\
  clz_step 30 2 st3 = st4 /\
  0 <= snd st4 < 2 ^ 32 /\
  0 <= fst st4 + 1 < 2 ^ 32.

(** The locals of [fast_rsqrt] up to the interpolated [y], computed
    without any reduction: each lies in the range of its C type
    ([uint32_t] or [uint64_t]) and is the value the code computes. *)
Definition seed_in_range (x : Z) : Prop :=
  let exp := 31 - clz32 x in
  let y_base := table_at exp in
  let y_next := if exp <? 31 then table_at (exp + 1) else 1 in
  let one_exp := if exp <? 31 then Z.shiftl 1 exp else 0 in
  let diff := x - one_exp in
  let frac64 := Z.shiftl diff 16 in
  let frac := Z.shiftr frac64 exp in
  let delta := y_base - y_next in
  let interp := delta * frac in
  let y := y_base - Z.shiftr interp 16 in
  (0 <= exp < 2 ^ 32 /\ rsqrt_exp x = exp) /\
  0 <= exp + 1 < 2 ^ 32 /\
  (0 <= one_exp < 2 ^ 32 /\ rsqrt_one_exp x = one_exp) /\
  0 <= diff < 2 ^ 64 /\
  0 <= frac64 < 2 ^ 64 /\
  (0 <= frac < 2 ^ 32 /\ rsqrt_frac x = frac) /\
  0 <= delta < 2 ^ 32 /\
  0 <= interp < 2 ^ 64 /\
  0 <= Z.shiftr interp 16 < 2 ^ 32 /\
  (0 <= y < 2 ^ 32 /\ rsqrt_seed x = y).

(** The locals of [q16_newton_step y x], likewise. *)
Definition newton_in_range (y x : Z) : Prop :=
  let y2 := y * y in
  let xy2 := x * y2 in
  let term := Z.shiftl 3 32 - xy2 in
  let prod := y * term in
  0 <= y2 < 2 ^ 64 /\
  0 <= xy2 < 2 ^ 64 /\
  0 <= term < 2 ^ 64 /\
  0 <= prod < 2 ^ 64 /\
  (0 <= Z.shiftr prod 33 < 2 ^ 32 /\ q16_newton_step y x = Z.shiftr prod 33).

End MorePieces.

Import MorePieces.

(** * The rest of [fast_rsqrt.c]: console output, [main] and [memcpy] *)

Module Console.

(** One [ecall] with number 64 ([sys_write]): the file descriptor and the
    [count] bytes at [buf].  The trace of these calls is all the program
    shows of itself; the value the environment returns in [a0] is ignored
    by every caller. *)
Definition syscall : Type := Z * list Z.

Definition write_syscall (fd : Z) (buf : list Z) (count : nat)
    (tr : list syscall) : list syscall :=
  tr ++ [(fd, firstn count buf)].

(** [while (s[len] != '\0') len++;] over the bytes stored from [s] on. *)
Fixpoint strlen (s : list Z) : nat :=
  match s with
  | [] => O
  | c :: s' => if c =? 0 then O else S (strlen s')
  end.

Definition print_str (s : list Z) (tr : list syscall) : list syscall :=
  let len := strlen s in
  if (0 <? len)%nat then write_syscall 1 s len tr else tr.

Definition u8 (v : Z) : Z := v mod 2 ^ 8.

(** [while (val != 0 && pos < 10) { buf[pos++] = '0' + (val % 10);
    val /= 10; }].  [buf] holds the [pos] bytes written so far and [room]
    is [10 - pos]. *)
Fixpoint fill_digits (room : nat) (val : Z) (buf : list Z) : list Z :=
  match room with
  | O => buf
  | S room' =>
      if val =? 0 then buf
      else fill_digits room' (val / 10) (buf ++ [u8 (48 + val mod 10)])
  end.

(** [for (int i = pos - 1; i >= 0; --i) write_syscall(1, &buf[i], 1);]
    with [i] one more than the index written next. *)
Fixpoint emit_digits (i : nat) (buf : list Z) (tr : list syscall)
    : list syscall :=
  match i with
  | O => tr
  | S i' => emit_digits i' buf (write_syscall 1 (skipn i' buf) 1 tr)
  end.

Definition print_uint (val : Z) (tr : list syscall) : list syscall :=
  let buf := if val =? 0 then [48] else fill_digits 10 val [] in
  emit_digits (List.length buf) buf tr.

Import Ascii String.

(** The bytes of a string literal, with the terminating zero. *)
Definition cstr (s : String.string) : list Z :=
  map (fun c => Z.of_N (Ascii.N_of_ascii c)) (String.list_ascii_of_string s)
  ++ [0].

Definition newline : String.string :=
  String.String (Ascii.ascii_of_N 10) String.EmptyString.

(** [main]: the trace it leaves and the value it returns. *)
Definition main (tr : list syscall) : list syscall * Z :=
  let tr :=
    print_str
      (cstr (String.append "===== Fast Reciprocal Square Root Demo ====="%string
                           newline)) tr in
  let values := [1; 5; 16; 1000000] in
  let tr :=
    fold_left
      (fun tr n =>
         let tr := print_str (cstr "fast_rsqrt("%string) tr in
         let tr := print_uint n tr in
         let tr := print_str (cstr ") = "%string) tr in
         let tr := print_uint (fast_rsqrt n) tr in
         print_str (cstr newline) tr)
      values tr in
  let ax := 1 in
  let ay := 2 in
  let az := 3 in
  let tr := print_str (cstr "Distance of ("%string) tr in
  let tr := print_uint (u32 ax) tr in
  let tr := print_str (cstr ", "%string) tr in
  let tr := print_uint (u32 ay) tr in
  let tr := print_str (cstr ", "%string) tr in
  let tr := print_uint (u32 az) tr in
  let tr := print_str (cstr ") = "%string) tr in
  let tr := print_uint (dist3 ax ay az) tr in
  let tr := print_str (cstr newline) tr in
  (tr, 0).

(** All bytes written to descriptor [fd], in order. *)
Definition written (fd : Z) (tr : list syscall) : list Z :=
  List.concat (map snd (filter (fun c => fst c =? fd) tr)).

(** The number a sequence of ASCII digits denotes. *)
Definition decimal_value (digits : list Z) : Z :=
  fold_left (fun acc c => 10 * acc + (c - 48)) digits 0.

Definition is_digit (c : Z) : Prop := 48 <= c <= 57.

(** The same for digits stored least significant first, as in [buf]. *)
Definition lsd_value (buf : list Z) : Z :=
  fold_right (fun c acc => 10 * acc + (c - 48)) 0 buf.

(** One call of [write_syscall] to descriptor 1 for each byte. *)
Definition byte_writes (bytes : list Z) : list syscall :=
  map (fun c => (1, [c])) bytes.

(** The bytes of a text, without a terminating zero. *)
Definition text (s : string) : list Z :=
  map (fun c => Z.of_N (N_of_ascii c)) (list_ascii_of_string s).

(** What [main] prints. *)
Definition main_text : string :=
  String.concat newline
    [ "===== Fast Reciprocal Square Root Demo =====";
      "fast_rsqrt(1) = 65536";
      "fast_rsqrt(5) = 29308";
      "fast_rsqrt(16) = 16384";
      "fast_rsqrt(1000000) = 65";
      "Distance of (1, 2, 3) = 3";
      "" ]%string.

End Console.

Module Memory.

(** Byte-addressed memory: the byte stored at each address. *)
Definition mem : Type := Z -> Z.

Definition store (m : mem) (a v : Z) : mem :=
  fun a' => if a' =? a then v else m a'.

(** [while (n--) { *d++ = *s++; }], with [n] the iterations left. *)
Fixpoint memcpy_loop (n : nat) (d s : Z) (m : mem) : mem :=
  match n with
  | O => m
  | S n' => memcpy_loop n' (d + 1) (s + 1) (store m d (m s))
  end.

(** [memcpy]: the pointer returned and the memory left. *)
Definition memcpy (dest src n : Z) (m : mem) : Z * mem :=
  (dest, memcpy_loop (Z.to_nat n) dest src m).

End Memory.

Import Console Memory.

(** * Machine-integer facts *)

Section Wrap.

Lemma u32_small (v : Z) : 0 <= v < 2 ^ 32 -> u32 v = v.
Proof. intros H. unfold u32. now apply Z.mod_small. Qed.

Lemma u64_small (v : Z) : 0 <= v < 2 ^ 64 -> u64 v = v.
Proof. intros H. unfold u64. now apply Z.mod_small. Qed.

Lemma u32_range (v : Z) : 0 <= u32 v < 2 ^ 32.
Proof. unfold u32. apply Z.mod_pos_bound. reflexivity. Qed.

Lemma u64_range (v : Z) : 0 <= u64 v < 2 ^ 64.
Proof. unfold u64. apply Z.mod_pos_bound. reflexivity. Qed.

Lemma pow2_pos (k : Z) : 0 <= k -> 0 < 2 ^ k.
Proof. intros; apply Z.pow_pos_nonneg; lia. Qed.

Lemma pow2_le (j k : Z) : 0 <= j <= k -> 2 ^ j <= 2 ^ k.
Proof. intros; apply Z.pow_le_mono_r; lia. Qed.

Lemma div_zero_lt (a b : Z) : 0 <= a -> 0 < b -> a / b = 0 -> a < b.
Proof.
  intros Ha Hb H. apply Z.div_small_iff in H; lia.
Qed.

Lemma div_nonzero_ge (a b : Z) : 0 <= a -> 0 < b -> a / b <> 0 -> b <= a.
Proof.
  intros Ha Hb H. destruct (Z_lt_le_dec a b) as [Hlt|]; [|assumption].
  exfalso. apply H. apply Z.div_small. lia.
Qed.

End Wrap.

(** * The leading-zero count *)

Section Clz.

(** One line of the binary search keeps [x = x0 * 2^n] and brings the
    leading one of [x] into the upper [32 - s] bits. *)
Lemma clz_step_inv (s w x0 n x B : Z) :
  0 < w <= s -> s + w = 32 ->
  0 <= n <= B -> B + w < 2 ^ 32 ->
  x = x0 * 2 ^ n ->
  2 ^ (s - w) <= x < 2 ^ 32 ->
  0 <= fst (clz_step s w (n, x)) <= B + w /\
  snd (clz_step s w (n, x)) = x0 * 2 ^ fst (clz_step s w (n, x)) /\
  2 ^ s <= snd (clz_step s w (n, x)) < 2 ^ 32.
Proof.
  intros Hw Hsw Hn HB Hx Hr.
  assert (Hs : 0 < 2 ^ s) by (apply pow2_pos; lia).
  assert (Hp : 0 < 2 ^ (s - w)) by (apply pow2_pos; lia).
  assert (Hww : 0 < 2 ^ w) by (apply pow2_pos; lia).
  assert (H32 : 2 ^ 32 = 2 ^ s * 2 ^ w)
    by (rewrite <- Z.pow_add_r by lia; f_equal; lia).
  assert (Hsp : 2 ^ s = 2 ^ (s - w) * 2 ^ w)
    by (rewrite <- Z.pow_add_r by lia; f_equal; lia).
  unfold clz_step. rewrite Z.shiftr_div_pow2 by lia.
  destruct (Z.eqb_spec (x / 2 ^ s) 0) as [E|E]; cbn [fst snd].
  - apply div_zero_lt in E; try lia.
    rewrite (u32_small (n + w)) by lia.
    rewrite Z.shiftl_mul_pow2 by lia.
    rewrite u32_small by (split; [nia | rewrite H32; nia]).
    split; [lia|]. split.
    + rewrite Z.pow_add_r by lia. subst x. ring.
    + split; [rewrite Hsp; nia | rewrite H32; nia].
  - apply div_nonzero_ge in E; try lia.
Qed.

Lemma clz32_inv (x : Z) :
  0 < x < 2 ^ 32 ->
  0 <= clz32 x <= 31 /\ 2 ^ 31 <= x * 2 ^ clz32 x < 2 ^ 32.
Proof.
  intros Hx. unfold clz32.
  destruct (Z.eqb_spec x 0) as [E|_]; [lia|].
  destruct (clz_step_inv 16 16 x 0 x 0) as (Hn1 & Hx1 & Hr1);
    [lia | lia | lia | lia | rewrite Z.pow_0_r; ring
    | change (2 ^ (16 - 16)) with 1; lia |].
  set (st1 := clz_step 16 16 (0, x)) in *.
  destruct (clz_step_inv 24 8 x (fst st1) (snd st1) 16) as (Hn2 & Hx2 & Hr2);
    [lia | lia | lia | lia | exact Hx1 | exact Hr1 |].
  rewrite <- surjective_pairing in Hn2, Hx2, Hr2.
  set (st2 := clz_step 24 8 st1) in *.
  destruct (clz_step_inv 28 4 x (fst st2) (snd st2) 24) as (Hn3 & Hx3 & Hr3);
    [lia | lia | lia | lia | exact Hx2 | exact Hr2 |].
  rewrite <- surjective_pairing in Hn3, Hx3, Hr3.
  set (st3 := clz_step 28 4 st2) in *.
  destruct (clz_step_inv 30 2 x (fst st3) (snd st3) 28) as (Hn4 & Hx4 & Hr4);
    [lia | lia | lia | lia | exact Hx3 | exact Hr3 |].
  rewrite <- surjective_pairing in Hn4, Hx4, Hr4.
  set (st4 := clz_step 30 2 st3) in *.
  destruct st4 as [n y]; cbn [fst snd] in *.
  rewrite Z.shiftr_div_pow2 by lia.
  destruct (Z.eqb_spec (y / 2 ^ 31) 0) as [E|E].
  - apply div_zero_lt in E; try lia.
    rewrite u32_small by lia.
    split; [lia|].
    rewrite Z.pow_add_r by lia. change (2 ^ 1) with 2. lia.
  - apply div_nonzero_ge in E; try lia.
Qed.

Lemma rsqrt_exp_bucket (x : Z) :
  0 < x < 2 ^ 32 ->
  0 <= rsqrt_exp x <= 31 /\ 2 ^ rsqrt_exp x <= x < 2 ^ (rsqrt_exp x + 1).
Proof.
  intros Hx. destruct (clz32_inv x Hx) as (Hn & Hlo & Hhi).
  unfold rsqrt_exp. rewrite u32_small by lia.
  set (n := clz32 x) in *.
  assert (Hp : 0 < 2 ^ n) by (apply pow2_pos; lia).
  assert (H31 : 2 ^ 31 = 2 ^ (31 - n) * 2 ^ n)
    by (rewrite <- Z.pow_add_r by lia; f_equal; lia).
  assert (H32 : 2 ^ 32 = 2 ^ (31 - n + 1) * 2 ^ n)
    by (rewrite <- Z.pow_add_r by lia; f_equal; lia).
  split; [lia|]. split.
  - apply (Z.mul_le_mono_pos_r _ _ (2 ^ n)); [assumption|]. lia.
  - apply (Z.mul_lt_mono_pos_r (2 ^ n)); [assumption|]. lia.
Qed.

Lemma rsqrt_exp_log2 (x : Z) : 0 < x < 2 ^ 32 -> rsqrt_exp x = Z.log2 x.
Proof.
  intros Hx. destruct (rsqrt_exp_bucket x Hx) as (He & Hb).
  symmetry. apply Z.log2_unique; lia.
Qed.

End Clz.

(** C2: for a nonzero 32-bit [x], the exponent [e = 31 - clz32 x] computed
    by [fast_rsqrt] lies in 0..31 and satisfies [2^e <= x < 2^(e+1)]
    (for [e = 31] the upper bound is [2^32]); equivalently [e] is the
    position of the most significant set bit of [x]. *)
Theorem exponent_bucket (x : Z) :
  0 < x < 2 ^ 32 ->
  let e := rsqrt_exp x in
  0 <= e <= 31 /\
  2 ^ e <= x < 2 ^ (e + 1) /\
  e = Z.log2 x /\
  Z.testbit x e = true /\
  (forall j, e < j -> Z.testbit x j = false).
Proof.
  intros Hx e. subst e.
  destruct (rsqrt_exp_bucket x Hx) as (He & Hb).
  rewrite (rsqrt_exp_log2 x Hx) in *.
  repeat split; try lia.
  - apply Z.bit_log2; lia.
  - intros j Hj. apply Z.bits_above_log2; lia.
Qed.

Lemma exponent_bucket_witness :
  0 < 1000000 < 2 ^ 32 /\ rsqrt_exp 1000000 = 19 /\
  2 ^ 19 <= 1000000 < 2 ^ 20.
Proof.
  assert (H : 0 < 1000000 < 2 ^ 32) by (split; reflexivity).
  split; [exact H|].
  pose proof (exponent_bucket 1000000 H) as (_ & Hb & _).
  split; [reflexivity | exact Hb].
Defined.

(** * The Newton step and the seed without wrap-around *)

Section Exact.

Lemma q16_newton_step_exact (y x : Z) :
  0 <= y <= 2 ^ 16 -> 0 <= x < 2 ^ 32 -> x * (y * y) <= 3 * 2 ^ 32 ->
  q16_newton_step y x = newton_exact y x.
Proof.
  intros Hy Hx Hxy. unfold q16_newton_step, newton_exact.
  change (Z.shiftl 3 32) with (3 * 2 ^ 32).
  change three_q32 with (3 * 2 ^ 32).
  assert (Hyy : 0 <= y * y <= 2 ^ 32) by nia.
  rewrite (u64_small (y * y)) by lia.
  assert (Hxyy : 0 <= x * (y * y)) by nia.
  rewrite (u64_small (x * (y * y))) by lia.
  rewrite (u64_small (3 * 2 ^ 32 - x * (y * y))) by lia.
  set (term := 3 * 2 ^ 32 - x * (y * y)) in *.
  assert (Hp : 0 <= y * term <= 2 ^ 16 * (3 * 2 ^ 32)) by nia.
  rewrite (u64_small (y * term)) by lia.
  rewrite Z.shiftr_div_pow2 by lia.
  apply u32_small. split.
  - apply Z.div_pos; lia.
  - apply Z.div_lt_upper_bound; lia.
Qed.

Lemma newton_exact_antitone (y x x' : Z) :
  0 <= y -> x <= x' -> newton_exact y x' <= newton_exact y x.
Proof.
  intros Hy Hx. unfold newton_exact.
  rewrite !Z.shiftr_div_pow2 by lia.
  apply Z.div_le_mono; [lia|].
  apply Z.mul_le_mono_nonneg_l; [assumption|].
  assert (x * (y * y) <= x' * (y * y))
    by (apply Z.mul_le_mono_nonneg_r; [apply Z.square_nonneg | assumption]).
  lia.
Qed.

Lemma fast_rsqrt_unfold (x : Z) :
  x <> 0 ->
  fast_rsqrt x = q16_newton_step (q16_newton_step (rsqrt_seed x) x) x.
Proof.
  intros Hx. unfold fast_rsqrt.
  destruct (Z.eqb_spec x 0) as [E|_]; [contradiction|]. reflexivity.
Qed.

Lemma rsqrt_exp_of_bucket (e x : Z) :
  0 <= e <= 31 -> 2 ^ e <= x < 2 ^ (e + 1) -> rsqrt_exp x = e.
Proof.
  intros He Hx.
  assert (0 < 2 ^ e) by (apply pow2_pos; lia).
  assert (2 ^ (e + 1) <= 2 ^ 32) by (apply pow2_le; lia).
  rewrite rsqrt_exp_log2 by lia.
  apply Z.log2_unique; lia.
Qed.

(** The fractional offset inside a bucket below the top one. *)
Lemma rsqrt_frac_bucket (e x : Z) :
  0 <= e <= 30 -> 2 ^ e <= x < 2 ^ (e + 1) ->
  rsqrt_frac x = ((x - 2 ^ e) * 2 ^ 16) / 2 ^ e /\
  0 <= rsqrt_frac x < 65536.
Proof.
  intros He Hx.
  assert (Hp : 0 < 2 ^ e) by (apply pow2_pos; lia).
  assert (H30 : 2 ^ e <= 2 ^ 30) by (apply pow2_le; lia).
  assert (Hs : 2 ^ (e + 1) = 2 * 2 ^ e)
    by (rewrite Z.pow_add_r by lia; change (2 ^ 1) with 2; ring).
  unfold rsqrt_frac, rsqrt_one_exp.
  rewrite (rsqrt_exp_of_bucket e x) by lia.
  destruct (Z.ltb_spec e 31) as [_|]; [|lia].
  rewrite (Z.shiftl_mul_pow2 1 e), Z.mul_1_l by lia.
  rewrite (u32_small (2 ^ e)) by lia.
  rewrite (u64_small (x - 2 ^ e)) by lia.
  rewrite Z.shiftl_mul_pow2 by lia.
  rewrite (u64_small ((x - 2 ^ e) * 2 ^ 16)) by lia.
  rewrite Z.shiftr_div_pow2 by lia.
  assert (Hq : 0 <= (x - 2 ^ e) * 2 ^ 16 / 2 ^ e < 65536).
  { split.
    - apply Z.div_pos; lia.
    - apply Z.div_lt_upper_bound; lia. }
  rewrite u32_small by lia.
  split; [reflexivity | exact Hq].
Qed.

(** In the top bucket [one_exp] is 0, so the offset is all of [x]. *)
Lemma rsqrt_frac_top (x : Z) :
  2 ^ 31 <= x < 2 ^ 32 ->
  rsqrt_frac x = x / 2 ^ 15 /\ 65536 <= rsqrt_frac x < 131072.
Proof.
  intros Hx.
  unfold rsqrt_frac, rsqrt_one_exp.
  rewrite (rsqrt_exp_of_bucket 31 x) by (change (31 + 1) with 32; lia).
  change (31 <? 31) with false. cbv iota.
  rewrite Z.sub_0_r, (u64_small x) by lia.
  rewrite Z.shiftl_mul_pow2 by lia.
  rewrite (u64_small (x * 2 ^ 16)) by lia.
  rewrite Z.shiftr_div_pow2 by lia.
  change (2 ^ 31) with (2 ^ 15 * 2 ^ 16).
  rewrite !Z.div_mul_cancel_r by lia.
  assert (Hq : 65536 <= x / 2 ^ 15 < 131072).
  { split.
    - apply Z.div_le_lower_bound; lia.
    - apply Z.div_lt_upper_bound; lia. }
  rewrite u32_small by lia.
  split; [reflexivity | exact Hq].
Qed.

Lemma rsqrt_seed_top (x : Z) : 2 ^ 31 <= x < 2 ^ 32 -> rsqrt_seed x = 1.
Proof.
  intros Hx. unfold rsqrt_seed.
  rewrite (rsqrt_exp_of_bucket 31 x) by (change (31 + 1) with 32; lia).
  change (31 <? 31) with false. cbv iota.
  change (table_at 31) with 1. change (u32 (1 - 1)) with 0.
  rewrite Z.mul_0_l. reflexivity.
Qed.

Lemma newton_top (x : Z) : 2 ^ 31 <= x < 2 ^ 32 -> q16_newton_step 1 x = 1.
Proof.
  intros Hx. rewrite q16_newton_step_exact by lia.
  unfold newton_exact. rewrite !Z.mul_1_l, Z.mul_1_r.
  rewrite Z.shiftr_div_pow2 by lia. change three_q32 with (3 * 2 ^ 32).
  symmetry. apply (Z.div_unique _ _ 1 (2 ^ 32 - x)); lia.
Qed.

End Exact.

(** C1: for the argument 0, [fast_rsqrt] returns the largest 32-bit
    unsigned value [0xFFFFFFFF]; the result is an ordinary value, the
    function has no error result. *)
Theorem fast_rsqrt_zero : fast_rsqrt 0 = 0xFFFFFFFF /\ fast_rsqrt 0 = 2 ^ 32 - 1.
Proof. split; reflexivity. Qed.

(** C8: [fast_rsqrt 1] is exactly 65536: the exponent is 0, the fractional
    offset is 0, the seed is [rsqrt_table[0] = 65536], and each Newton step
    maps 65536 to itself. *)
Theorem fast_rsqrt_one :
  fast_rsqrt 1 = 65536 /\
  rsqrt_exp 1 = 0 /\ rsqrt_frac 1 = 0 /\ rsqrt_seed 1 = 65536 /\
  q16_newton_step 65536 1 = 65536.
Proof. repeat split; vm_compute; reflexivity. Qed.

(** C10: on the top bucket, [2^31 <= x <= 2^32 - 1], the seed is 1 (both
    table entries used are 1) and [fast_rsqrt x] is exactly 1. *)
Theorem fast_rsqrt_top_bucket (x : Z) :
  2 ^ 31 <= x <= 2 ^ 32 - 1 -> rsqrt_seed x = 1 /\ fast_rsqrt x = 1.
Proof.
  intros Hx. assert (Hx' : 2 ^ 31 <= x < 2 ^ 32) by lia.
  split; [now apply rsqrt_seed_top|].
  rewrite fast_rsqrt_unfold by lia.
  rewrite rsqrt_seed_top by assumption.
  now rewrite !newton_top.
Qed.

Lemma fast_rsqrt_top_bucket_witness :
  2 ^ 31 <= 3000000000 <= 2 ^ 32 - 1 /\ fast_rsqrt 3000000000 = 1.
Proof.
  assert (H : 2 ^ 31 <= 3000000000 <= 2 ^ 32 - 1) by (split; discriminate).
  split; [exact H | exact (proj2 (fast_rsqrt_top_bucket 3000000000 H))].
Defined.

(** C5 (as written, refuted): at [x = 2^31] the exponent is 31, [one_exp]
    is 0 and the offset [frac] is 65536, outside [0, 65536). *)
Lemma frac_range_top_counterexample :
  rsqrt_exp 2147483648 = 31 /\
  rsqrt_one_exp 2147483648 = 0 /\
  rsqrt_frac 2147483648 = 65536 /\
  ~ (0 <= rsqrt_frac 2147483648 < 65536).
Proof.
  repeat split; try (vm_compute; reflexivity).
  change (rsqrt_frac 2147483648) with 65536. lia.
Qed.

(** C5 (amended): for a nonzero [x] with exponent [e < 31], [one_exp] is
    [2^e] and [frac = ((x - 2^e) << 16) >> e] lies in [0, 65536); for
    [e = 31], [one_exp] is 0 and [frac = x >> 15] lies in
    [65536, 131072). *)
Theorem frac_range (x : Z) :
  0 < x < 2 ^ 32 ->
  let e := rsqrt_exp x in
  (e < 31 ->
     rsqrt_one_exp x = 2 ^ e /\
     rsqrt_frac x = ((x - 2 ^ e) * 2 ^ 16) / 2 ^ e /\
     0 <= rsqrt_frac x < 65536) /\
  (e = 31 ->
     rsqrt_one_exp x = 0 /\
     rsqrt_frac x = x / 2 ^ 15 /\
     65536 <= rsqrt_frac x < 131072).
Proof.
  intros Hx e. destruct (rsqrt_exp_bucket x Hx) as (He & Hb). fold e in He, Hb.
  split; intros Hc.
  - assert (Hp : 2 ^ e <= 2 ^ 30) by (apply pow2_le; lia).
    assert (Hp' : 0 < 2 ^ e) by (apply pow2_pos; lia).
    split.
    + unfold rsqrt_one_exp. fold e.
      destruct (Z.ltb_spec e 31) as [_|]; [|lia].
      rewrite Z.shiftl_mul_pow2, Z.mul_1_l by lia.
      apply u32_small. lia.
    + apply rsqrt_frac_bucket; lia.
  - rewrite Hc in Hb. change (31 + 1) with 32 in Hb.
    split.
    + unfold rsqrt_one_exp. fold e. rewrite Hc. reflexivity.
    + apply rsqrt_frac_top; lia.
Qed.

Lemma frac_range_witness :
  0 < 14 < 2 ^ 32 /\ rsqrt_exp 14 = 3 /\ 0 <= rsqrt_frac 14 < 65536.
Proof.
  assert (H : 0 < 14 < 2 ^ 32) by (split; reflexivity).
  split; [exact H|]. split; [reflexivity|].
  destruct (frac_range 14 H) as (Hlow & _).
  apply Hlow. reflexivity.
Defined.

(** * The distance function *)

Section Dist.

Lemma square64 (x : Z) :
  is_i32 x -> u64 (u64 x * u64 x) = x * x /\ 0 <= x * x <= 2 ^ 62.
Proof.
  unfold is_i32. intros Hx.
  assert (Hsq : 0 <= x * x <= 2 ^ 62) by nia.
  split; [|exact Hsq].
  unfold u64. rewrite <- Z.mul_mod by lia.
  apply Z.mod_small. lia.
Qed.

(** The 64-bit sum of squares is the exact sum: nothing wraps. *)
Lemma sum_sq64_exact (x y z : Z) :
  is_i32 x -> is_i32 y -> is_i32 z ->
  sum_sq64 x y z = x * x + y * y + z * z.
Proof.
  intros Hx Hy Hz. unfold sum_sq64.
  destruct (square64 x Hx) as (-> & ?).
  destruct (square64 y Hy) as (-> & ?).
  destruct (square64 z Hz) as (-> & ?).
  rewrite (u64_small (x * x + y * y)) by lia.
  apply u64_small. lia.
Qed.

End Dist.

(** C6: when the exact sum of squares of three [int32_t] arguments exceeds
    [0xFFFFFFFF], the 64-bit sum computed by [dist3] is the exact sum (no
    wrap-around), and [dist3] returns what lines 72-75 compute from the
    clamped sum [0xFFFFFFFF], which is 65535. *)
Theorem dist3_saturates (x y z : Z) :
  is_i32 x -> is_i32 y -> is_i32 z ->
  x * x + y * y + z * z > 0xFFFFFFFF ->
  sum_sq64 x y z = x * x + y * y + z * z /\
  dist3 x y z = dist3_of_sum 0xFFFFFFFF /\
  dist3 x y z = 65535.
Proof.
  intros Hx Hy Hz Hs.
  pose proof (sum_sq64_exact x y z Hx Hy Hz) as E.
  split; [exact E|].
  cbv beta zeta delta [dist3]. rewrite E.
  rewrite Z.gtb_ltb.
  destruct (Z.ltb_spec 0xFFFFFFFF (x * x + y * y + z * z)) as [_|]; [|lia].
  split; vm_compute; reflexivity.
Qed.

Lemma dist3_saturates_witness :
  65536 * 65536 + -3 * -3 + 0 * 0 > 0xFFFFFFFF /\ dist3 65536 (-3) 0 = 65535.
Proof.
  assert (H1 : is_i32 65536) by (unfold is_i32; lia).
  assert (H2 : is_i32 (-3)) by (unfold is_i32; lia).
  assert (H3 : is_i32 0) by (unfold is_i32; lia).
  assert (H : 65536 * 65536 + -3 * -3 + 0 * 0 > 0xFFFFFFFF) by reflexivity.
  split; [exact H|].
  exact (proj2 (proj2 (dist3_saturates 65536 (-3) 0 H1 H2 H3 H))).
Defined.

(** C7: [dist3 0 0 0] is exactly 0: the inner call [fast_rsqrt 0] returns
    the saturated value [0xFFFFFFFF], and the product with the zero sum
    is 0. *)
Theorem dist3_origin :
  dist3 0 0 0 = 0 /\
  sum_sq64 0 0 0 = 0 /\
  fast_rsqrt (u32 (sum_sq64 0 0 0)) = 0xFFFFFFFF.
Proof. split; [|split]; vm_compute; reflexivity. Qed.

(** C9: [dist3 1 2 3] is 3 or 4 (it is 3). *)
Theorem dist3_1_2_3 : dist3 1 2 3 = 3 \/ dist3 1 2 3 = 4.
Proof. left. vm_compute. reflexivity. Qed.

(** * The seed is antitone inside a bucket *)

Section Seed.

Lemma table_bounds (e : Z) :
  0 <= e <= 30 ->
  1 <= table_at (e + 1) <= table_at e /\ table_at e <= 65536.
Proof.
  intros He.
  assert (Hn : (Z.to_nat e <= 30)%nat) by lia.
  replace e with (Z.of_nat (Z.to_nat e)) by lia.
  generalize dependent (Z.to_nat e). clear He e. intros n Hn.
  do 31 (destruct n as [|n]; [vm_compute; intuition discriminate|]).
  lia.
Qed.

Lemma seed_exact_div (e x : Z) :
  0 <= e <= 30 ->
  seed_exact e x =
  table_at e
  - ((table_at e - table_at (e + 1)) * (((x - 2 ^ e) * 2 ^ 16) / 2 ^ e))
    / 2 ^ 16.
Proof.
  intros He. unfold seed_exact.
  destruct (Z.ltb_spec e 31) as [_|]; [|lia].
  rewrite (Z.shiftl_mul_pow2 1 e), Z.mul_1_l by lia.
  rewrite (Z.shiftl_mul_pow2 _ 16) by lia.
  now rewrite !Z.shiftr_div_pow2 by lia.
Qed.

Lemma seed_exact_antitone (e x x' : Z) :
  0 <= e <= 31 -> x <= x' -> seed_exact e x' <= seed_exact e x.
Proof.
  intros He Hx.
  destruct (Z.eq_dec e 31) as [->|Hne]; [reflexivity|].
  rewrite !seed_exact_div by lia.
  destruct (table_bounds e) as ((_ & Hd) & _); [lia|].
  assert (Hp : 0 < 2 ^ e) by (apply pow2_pos; lia).
  assert (Hf : ((x - 2 ^ e) * 2 ^ 16) / 2 ^ e <= ((x' - 2 ^ e) * 2 ^ 16) / 2 ^ e)
    by (apply Z.div_le_mono; lia).
  assert (Hm : (table_at e - table_at (e + 1)) * (((x - 2 ^ e) * 2 ^ 16) / 2 ^ e)
               <= (table_at e - table_at (e + 1))
                  * (((x' - 2 ^ e) * 2 ^ 16) / 2 ^ e))
    by (apply Z.mul_le_mono_nonneg_l; lia).
  apply (Z.div_le_mono _ _ (2 ^ 16)) in Hm; lia.
Qed.

(** Inside its bucket the seed computed by the code is [seed_exact]. *)
Lemma rsqrt_seed_bucket (e x : Z) :
  0 <= e <= 31 -> 2 ^ e <= x < 2 ^ (e + 1) ->
  rsqrt_seed x = seed_exact e x /\ 1 <= rsqrt_seed x <= 65536.
Proof.
  intros He Hx.
  destruct (Z.eq_dec e 31) as [->|Hne].
  - change (31 + 1) with 32 in Hx. rewrite rsqrt_seed_top by lia.
    split; [reflexivity | lia].
  - destruct (rsqrt_frac_bucket e x) as (Hfr & Hfb); [lia | lia |].
    destruct (table_bounds e) as ((Hn & Hd) & Hb); [lia|].
    rewrite seed_exact_div by lia. rewrite <- Hfr.
    unfold rsqrt_seed.
    rewrite (rsqrt_exp_of_bucket e x) by lia.
    destruct (Z.ltb_spec e 31) as [_|]; [|lia].
    rewrite (u32_small (e + 1)) by lia.
    set (tb := table_at e) in *. set (tn := table_at (e + 1)) in *.
    set (fr := rsqrt_frac x) in *.
    rewrite (u32_small (tb - tn)) by lia.
    assert (Hprod : 0 <= (tb - tn) * fr <= (tb - tn) * 2 ^ 16) by nia.
    rewrite (u64_small ((tb - tn) * fr)) by lia.
    rewrite Z.shiftr_div_pow2 by lia.
    assert (Hq : 0 <= (tb - tn) * fr / 2 ^ 16 <= tb - tn).
    { split.
      - apply Z.div_pos; lia.
      - apply Z.div_le_upper_bound; lia. }
    rewrite (u32_small ((tb - tn) * fr / 2 ^ 16)) by lia.
    rewrite u32_small by lia.
    split; [reflexivity | lia].
Qed.

Lemma log2_bucket (x : Z) :
  0 < x < 2 ^ 32 ->
  0 <= Z.log2 x <= 31 /\ 2 ^ Z.log2 x <= x < 2 ^ (Z.log2 x + 1).
Proof.
  intros Hx. split.
  - split; [apply Z.log2_nonneg|].
    assert (Z.log2 x < 32) by (apply Z.log2_lt_pow2; lia). lia.
  - apply Z.log2_spec. lia.
Qed.

End Seed.

(** * Soundness of the run checker *)

Section Cover.

Lemma const_on_sound (a b v : Z) :
  const_on a b = Some v ->
  a <= b /\ forall x, a <= x <= b -> fast_rsqrt x = v.
Proof.
  unfold const_on. set (e := Z.log2 a).
  destruct ((0 <? a) && (a <=? b) && (b <? 4294967296) && (Z.log2 b =? e))
    eqn:C1; cbn [negb]; [|discriminate].
  rewrite !andb_true_iff in C1. destruct C1 as (((Ha & Hab) & Hb) & He).
  apply Z.ltb_lt in Ha, Hb. apply Z.leb_le in Hab. apply Z.eqb_eq in He.
  set (s := seed_exact e a).
  destruct ((seed_exact e b =? s) && (b * (s * s) <=? three_q32))
    eqn:C2; cbn [negb]; [|discriminate].
  rewrite andb_true_iff in C2. destruct C2 as (Hsb & Hs3).
  apply Z.eqb_eq in Hsb. apply Z.leb_le in Hs3.
  set (y1 := newton_exact s a).
  destruct ((newton_exact s b =? y1) && (y1 <=? 65536)
            && (b * (y1 * y1) <=? three_q32)) eqn:C3; cbn [negb];
    [|discriminate].
  rewrite !andb_true_iff in C3. destruct C3 as ((Hy1b & Hy1u) & Hy13).
  apply Z.eqb_eq in Hy1b. apply Z.leb_le in Hy1u, Hy13.
  destruct (Z.eqb_spec (newton_exact y1 b) (newton_exact y1 a)) as [Hy2|];
    [|discriminate].
  intros [= <-]. split; [assumption|]. intros x Hx.
  unfold three_q32 in *.
  (* the bucket *)
  assert (Hlx : Z.log2 x = e).
  { pose proof (Z.log2_le_mono a x). pose proof (Z.log2_le_mono x b). lia. }
  destruct (log2_bucket a) as (He31 & Hba); [lia|]. fold e in He31, Hba.
  destruct (log2_bucket x) as (_ & Hbx); [lia|]. rewrite Hlx in Hbx.
  (* the seed *)
  destruct (rsqrt_seed_bucket e a He31 Hba) as (Hsa & Hsr).
  destruct (rsqrt_seed_bucket e x He31 Hbx) as (Hsx & _).
  fold s in Hsa. rewrite Hsa in Hsr.
  assert (Hs : rsqrt_seed x = s).
  { pose proof (seed_exact_antitone e a x He31). 
    pose proof (seed_exact_antitone e x b He31). lia. }
  (* the first step *)
  assert (Hss : 0 <= s * s) by apply Z.square_nonneg.
  assert (Hxs : x * (s * s) <= b * (s * s))
    by (apply Z.mul_le_mono_nonneg_r; lia).
  assert (Has : a * (s * s) <= b * (s * s))
    by (apply Z.mul_le_mono_nonneg_r; lia).
  assert (H1 : q16_newton_step s x = y1).
  { rewrite q16_newton_step_exact by lia.
    pose proof (newton_exact_antitone s a x).
    pose proof (newton_exact_antitone s x b). lia. }
  assert (Hy1l : 0 <= y1).
  { unfold y1. rewrite <- q16_newton_step_exact by lia.
    apply u32_range. }
  (* the second step *)
  assert (Hyy : 0 <= y1 * y1) by apply Z.square_nonneg.
  assert (Hxy : x * (y1 * y1) <= b * (y1 * y1))
    by (apply Z.mul_le_mono_nonneg_r; lia).
  rewrite fast_rsqrt_unfold by lia.
  rewrite Hs, H1.
  rewrite q16_newton_step_exact by lia.
  pose proof (newton_exact_antitone y1 a x).
  pose proof (newton_exact_antitone y1 x b). lia.
Qed.

Lemma tiles_app (f : Z -> Z) (l1 l2 : list piece) (a m b : Z) :
  tiles f a l1 m -> tiles f (m + 1) l2 b -> tiles f a (l1 ++ l2) b.
Proof.
  revert a. induction l1 as [|[[a1 b1] v1] l1 IH]; intros a H1 H2.
  - cbn in *. now subst a.
  - cbn in *. destruct H1 as (? & ? & ? & ?). repeat split; auto.
Qed.

Lemma cover_sound (fuel : nat) (a b : Z) (l : list piece) :
  cover fuel a b = Some l -> tiles fast_rsqrt a l b.
Proof.
  revert a b l. induction fuel as [|fuel IH]; intros a b l; cbn [cover];
    destruct (const_on a b) as [v|] eqn:C.
  - intros [= <-]. destruct (const_on_sound a b v C). cbn. auto.
  - discriminate.
  - intros [= <-]. destruct (const_on_sound a b v C). cbn. auto.
  - destruct (a <? b); [|discriminate].
    destruct (cover fuel a (Z.div2 (a + b))) as [l1|] eqn:E1; [|discriminate].
    destruct (cover fuel (Z.div2 (a + b) + 1) b) as [l2|] eqn:E2;
      [|discriminate].
    intros [= <-]. eapply tiles_app; eauto.
Qed.

Lemma cover_buckets_sound (n : nat) (e : Z) (l : list piece) :
  0 <= e ->
  cover_buckets e n = Some l ->
  tiles fast_rsqrt (2 ^ e) l (2 ^ (e + Z.of_nat n) - 1).
Proof.
  revert e l. induction n as [|n IH]; intros e l He; cbn [cover_buckets].
  - intros [= <-]. cbn [tiles]. rewrite Z.add_0_r. lia.
  - destruct (cover 32 (2 ^ e) (2 ^ (e + 1) - 1)) as [l1|] eqn:E1;
      [|discriminate].
    destruct (cover_buckets (e + 1) n) as [l2|] eqn:E2; [|discriminate].
    intros [= <-].
    apply (tiles_app _ _ _ _ (2 ^ (e + 1) - 1)).
    + now apply (cover_sound 32).
    + replace (2 ^ (e + 1) - 1 + 1) with (2 ^ (e + 1)) by lia.
      replace (e + Z.of_nat (S n)) with (e + 1 + Z.of_nat n) by lia.
      apply IH; [lia | assumption].
Qed.

Lemma run_check_sound (Q : list piece -> bool) (o : option (list piece)) :
  run_check Q o = true -> exists l, o = Some l /\ Q l = true.
Proof.
  destruct o as [l|]; cbn [run_check]; [|discriminate].
  intros H. now exists l.
Qed.

(** The runs of all 32 buckets tile the nonzero 32-bit arguments. *)
Lemma all_buckets_sound (Q : list piece -> bool) :
  run_check Q (cover_buckets 0 32) = true ->
  exists l, tiles fast_rsqrt 1 l (2 ^ 32 - 1) /\ Q l = true.
Proof.
  intros H. apply run_check_sound in H. destruct H as (l & E & H).
  exists l. split; [|exact H].
  apply (cover_buckets_sound 32 0 l) in E; [exact E | lia].
Qed.

End Cover.

(** * Properties read off a list of runs *)

Section Runs.

Variable f : Z -> Z.

Lemma tiles_forall (Q : piece -> bool) (l : list piece) (a b : Z) :
  tiles f a l b -> forallb Q l = true ->
  forall x, a <= x <= b ->
  exists a' b', a' <= x <= b' /\ Q (a', b', f x) = true.
Proof.
  revert a. induction l as [|[[a1 b1] v1] l IH]; intros a Ht Hq x Hx.
  - cbn in Ht. lia.
  - cbn [tiles] in Ht. destruct Ht as (-> & Hab & Hc & Ht).
    cbn [forallb] in Hq. apply andb_true_iff in Hq. destruct Hq as (Hq1 & Hq).
    destruct (Z_le_gt_dec x b1) as [Hle|Hgt].
    + exists a, b1. split; [lia|]. rewrite Hc by lia. exact Hq1.
    + apply (IH (b1 + 1)); [assumption | assumption | lia].
Qed.

Lemma adj_sound (l : list piece) (a b : Z) :
  tiles f a l b -> adj_ok l = true ->
  forall x, a <= x < b -> ~ In x rise_points -> f (x + 1) <= f x.
Proof.
  revert a. induction l as [|[[a1 b1] v1] l IH]; intros a Ht Hadj x Hx Hn.
  - cbn in Ht. lia.
  - cbn [tiles] in Ht. destruct Ht as (-> & Hab & Hc & Ht).
    destruct (Z_lt_le_dec x b1) as [Hlt|Hge].
    { rewrite !Hc by lia. lia. }
    destruct l as [|[[a2 b2] v2] l'].
    { cbn in Ht. lia. }
    cbn [adj_ok] in Hadj. apply andb_true_iff in Hadj.
    destruct Hadj as (Hstep & Hadj).
    destruct (Z.eq_dec x b1) as [->|Hne].
    + pose proof Ht as Ht'. cbn [tiles] in Ht'.
      destruct Ht' as (_ & Hab2 & Hc2 & _).
      rewrite (Hc b1) by lia. rewrite (Hc2 (b1 + 1)) by lia.
      apply orb_true_iff in Hstep. destruct Hstep as [Hle|Hex].
      * now apply Z.leb_le.
      * exfalso. apply Hn. apply existsb_exists in Hex.
        destruct Hex as (y & Hy & Heq). apply Z.eqb_eq in Heq. now subst y.
    + apply (IH (b1 + 1)); [assumption | assumption | lia | assumption].
Qed.

Lemma trend_sound (l : list piece) (a0 a b m : Z) :
  tiles f a l b -> trend_ok m l = true ->
  (forall x, a0 <= x < a -> m <= f x) ->
  forall x x', a0 <= x <= x' -> a <= x' <= b -> f x' <= f x + 1.
Proof.
  revert a m. induction l as [|[[a1 b1] v1] l IH];
    intros a m Ht Hok Hm x x' Hx Hx'.
  - cbn in Ht. lia.
  - cbn [tiles] in Ht. destruct Ht as (-> & Hab & Hc & Ht).
    cbn [trend_ok] in Hok. apply andb_true_iff in Hok.
    destruct Hok as (Hv & Hok). apply Z.leb_le in Hv.
    destruct (Z_le_gt_dec x' b1) as [Hle|Hgt].
    + rewrite (Hc x') by lia.
      destruct (Z_lt_le_dec x a) as [Hlt|Hge].
      * specialize (Hm x). lia.
      * rewrite (Hc x) by lia. lia.
    + apply (IH (b1 + 1) (Z.min m v1)); try assumption; try lia.
      intros x0 Hx0. destruct (Z_lt_le_dec x0 a) as [Hlt|Hge].
      * specialize (Hm x0). lia.
      * rewrite (Hc x0) by lia. lia.
Qed.

End Runs.

Section Checked.

Lemma pieces_monotone_checked :
  run_check (fun l => adj_ok l && trend_ok 65536 l) (cover_buckets 0 32)
  = true.
Proof. vm_compute. reflexivity. Qed.

Lemma pieces_accurate_checked :
  run_check (forallb accurate_on) (cover_buckets 0 32) = true.
Proof. vm_compute. reflexivity. Qed.

Lemma tolerance_small_checked :
  forallb within_toleranceb (map Z.of_nat (seq 1 1132)) = true.
Proof. vm_compute. reflexivity. Qed.

Lemma rise_points_rise (x : Z) :
  In x rise_points -> fast_rsqrt (x + 1) = fast_rsqrt x + 1.
Proof.
  unfold rise_points. cbn [In]. intros H.
  repeat (destruct H as [<-|H]; [vm_compute; reflexivity|]).
  contradiction.
Qed.

End Checked.

(** C3 (as written, refuted): at [x = 1000000] the result is 65, and
    [65^2 * 1000000] is more than 0.1 percent away from [2^32]; the
    smallest argument out of tolerance is 1133. *)
Lemma tolerance_counterexample :
  fast_rsqrt 1000000 = 65 /\
  ~ within_tolerance 1000000 /\
  ~ within_tolerance 1133.
Proof.
  split; [vm_compute; reflexivity|].
  split; intros H; apply Z.ltb_lt in H; vm_compute in H; discriminate.
Qed.

(** C3 (amended): for [1 <= x <= 1132] the exact integer [y^2 * x], with
    [y = fast_rsqrt x], is within 0.1 percent of [2^32]; on the whole
    domain [1 <= x <= 2^32 - 1] the result never overshoots and falls
    short by less than 2: [y^2 * x <= 2^32 < (y + 2)^2 * x]. *)
Theorem fast_rsqrt_accuracy (x : Z) :
  1 <= x <= 0xFFFFFFFF ->
  let y := fast_rsqrt x in
  (x <= 1132 -> within_tolerance x) /\
  0 <= y /\
  y * y * x <= 2 ^ 32 < (y + 2) * (y + 2) * x.
Proof.
  intros Hx y. split.
  - intros Hs. apply Z.ltb_lt.
    pose proof tolerance_small_checked as H.
    rewrite forallb_forall in H. apply (H x).
    apply in_map_iff. exists (Z.to_nat x). split; [lia|].
    apply in_seq. lia.
  - destruct (all_buckets_sound _ pieces_accurate_checked) as (l & E & H).
    destruct (tiles_forall fast_rsqrt accurate_on l 1 (2 ^ 32 - 1) E H x)
      as (a & b & Hab & Hq); [lia|].
    fold y in Hq. unfold accurate_on in Hq.
    rewrite !andb_true_iff in Hq. destruct Hq as ((Hy & Hlo) & Hhi).
    apply Z.leb_le in Hy, Hlo. apply Z.ltb_lt in Hhi.
    assert (Hyy : 0 <= y * y) by apply Z.square_nonneg.
    assert (H1 : y * y * x <= y * y * b)
      by (apply Z.mul_le_mono_nonneg_l; lia).
    assert (H2 : (y + 2) * (y + 2) * a <= (y + 2) * (y + 2) * x)
      by (apply Z.mul_le_mono_nonneg_l; [apply Z.square_nonneg | lia]).
    lia.
Qed.

Lemma fast_rsqrt_accuracy_witness :
  1 <= 14 <= 0xFFFFFFFF /\ within_tolerance 14 /\
  fast_rsqrt 14 * fast_rsqrt 14 * 14 <= 2 ^ 32.
Proof.
  assert (H : 1 <= 14 <= 0xFFFFFFFF) by (split; discriminate).
  split; [exact H|].
  destruct (fast_rsqrt_accuracy 14 H) as (Ht & _ & Hle & _).
  split; [apply Ht; discriminate | exact Hle].
Defined.

(** Where the results of the code as it stands rise: for [x] and [x + 1]
    both in [1 .. 2^32 - 1], [fast_rsqrt (x + 1) <= fast_rsqrt x] unless
    [x] is one of the nine [rise_points], where the result goes up by 1;
    and [fast_rsqrt x' <= fast_rsqrt x + 1] whenever
    [x <= x' <= 2^32 - 1]. *)
Lemma fast_rsqrt_monotone_trend (x : Z) :
  1 <= x -> x + 1 <= 0xFFFFFFFF ->
  (~ In x rise_points -> fast_rsqrt (x + 1) <= fast_rsqrt x) /\
  (In x rise_points -> fast_rsqrt (x + 1) = fast_rsqrt x + 1) /\
  (forall x', x <= x' <= 0xFFFFFFFF -> fast_rsqrt x' <= fast_rsqrt x + 1).
Proof.
  intros Hlo Hhi.
  destruct (all_buckets_sound _ pieces_monotone_checked) as (l & E & H).
  apply andb_true_iff in H. destruct H as (Hadj & Htrend).
  split; [|split].
  - intros Hn. apply (adj_sound fast_rsqrt l 1 (2 ^ 32 - 1)); auto. lia.
  - apply rise_points_rise.
  - intros x' Hx'.
    apply (trend_sound fast_rsqrt l 1 1 (2 ^ 32 - 1) 65536); auto; try lia.
Qed.

(** * More on [clz32] and the seed table *)

Section ClzTable.

Lemma clz32_log2 (x : Z) : 0 < x < 2 ^ 32 -> clz32 x = 31 - Z.log2 x.
Proof.
  intros Hx. destruct (clz32_inv x Hx) as (Hn & _).
  pose proof (rsqrt_exp_log2 x Hx) as H. unfold rsqrt_exp in H.
  rewrite u32_small in H by lia. lia.
Qed.

Lemma table_step (e : Z) : 0 <= e <= 30 -> table_at (e + 1) < table_at e.
Proof.
  intros He.
  assert (Hn : (Z.to_nat e <= 30)%nat) by lia.
  replace e with (Z.of_nat (Z.to_nat e)) by lia.
  generalize dependent (Z.to_nat e). clear He e. intros n Hn.
  do 31 (destruct n as [|n]; [reflexivity|]).
  lia.
Qed.

Lemma table_span (n : nat) (i : Z) :
  0 <= i -> i + 1 + Z.of_nat n <= 31 ->
  table_at (i + 1 + Z.of_nat n) < table_at i.
Proof.
  induction n as [|n IH]; intros Hi Hj.
  - rewrite Z.add_0_r. apply table_step. lia.
  - replace (i + 1 + Z.of_nat (S n)) with (i + 1 + Z.of_nat n + 1) by lia.
    pose proof (table_step (i + 1 + Z.of_nat n)). lia.
Qed.

End ClzTable.

(** X1: for every 32-bit [x], [clz32 x] lies in 0..32 and is 32 exactly
    for [x = 0]; [x] fits in the lower [32 - clz32 x] bits, the bits from
    there up are 0, and for [x <> 0] the count is [31 - log2 x]. *)
Theorem clz32_characterisation (x : Z) :
  0 <= x < 2 ^ 32 ->
  0 <= clz32 x <= 32 /\
  (clz32 x = 32 <-> x = 0) /\
  x < 2 ^ (32 - clz32 x) /\
  (x <> 0 -> clz32 x = 31 - Z.log2 x) /\
  (forall i, 32 - clz32 x <= i -> Z.testbit x i = false).
Proof.
  intros Hx. destruct (Z.eq_dec x 0) as [->|Hne].
  - change (clz32 0) with 32. repeat split; try lia.
    intros i _. apply Z.bits_0.
  - assert (Hx' : 0 < x < 2 ^ 32) by lia.
    destruct (clz32_inv x Hx') as (Hn & _).
    pose proof (clz32_log2 x Hx') as Hl.
    destruct (Z.log2_spec x) as (_ & Hhi); [lia|].
    repeat split; try lia.
    + replace (32 - clz32 x) with (Z.succ (Z.log2 x)) by lia. exact Hhi.
    + intros i Hi. apply Z.bits_above_log2; lia.
Qed.

Lemma clz32_characterisation_witness :
  0 <= 1000000 < 2 ^ 32 /\ clz32 1000000 = 12 /\ 1000000 < 2 ^ (32 - 12).
Proof.
  assert (H : 0 <= 1000000 < 2 ^ 32) by (split; [discriminate | reflexivity]).
  split; [exact H|]. split; [reflexivity|].
  destruct (clz32_characterisation 1000000 H) as (_ & _ & Hb & _).
  exact Hb.
Defined.

(** X2: [clz32] is antitone: a larger 32-bit argument never has more
    leading zeros. *)
Theorem clz32_antitone (x x' : Z) :
  0 <= x <= x' -> x' < 2 ^ 32 -> clz32 x' <= clz32 x.
Proof.
  intros Hx Hx'. destruct (Z.eq_dec x 0) as [->|Hne].
  - change (clz32 0) with 32.
    destruct (Z.eq_dec x' 0) as [->|Hne']; [reflexivity|].
    destruct (clz32_inv x') as (Hn & _); lia.
  - rewrite (clz32_log2 x), (clz32_log2 x') by lia.
    pose proof (Z.log2_le_mono x x'). lia.
Qed.

Lemma clz32_antitone_witness :
  0 <= 255 <= 256 /\ clz32 256 <= clz32 255.
Proof.
  assert (H : 0 <= 255 <= 256) by (split; discriminate).
  split; [exact H|].
  apply (clz32_antitone 255 256 H). reflexivity.
Defined.

(** X3: the seed table is strictly decreasing, from 65536 at index 0 down
    to 1 at index 31: for indices [0 <= i < j <= 31],
    [1 <= rsqrt_table[j] < rsqrt_table[i] <= 65536]. *)
Theorem rsqrt_table_strictly_decreasing (i j : Z) :
  0 <= i -> i < j -> j <= 31 ->
  1 <= table_at j /\ table_at j < table_at i /\ table_at i <= 65536.
Proof.
  intros Hi Hij Hj.
  destruct (table_bounds (j - 1)) as ((H1 & _) & _); [lia|].
  replace (j - 1 + 1) with j in H1 by lia.
  destruct (table_bounds i) as (_ & H2); [lia|].
  split; [exact H1|]. split; [|exact H2].
  replace j with (i + 1 + Z.of_nat (Z.to_nat (j - i - 1))) by lia.
  apply table_span; lia.
Qed.

Lemma rsqrt_table_strictly_decreasing_witness :
  table_at 31 < table_at 0 /\ table_at 0 = 65536 /\ table_at 31 = 1.
Proof.
  assert (H1 : 0 <= 0) by discriminate.
  assert (H2 : 0 < 31) by reflexivity.
  assert (H3 : 31 <= 31) by discriminate.
  destruct (rsqrt_table_strictly_decreasing 0 31 H1 H2 H3) as (_ & H & _).
  split; [exact H|]. split; reflexivity.
Defined.

(** X4: every table entry [t] at exponent [e] is within one unit of
    [2^16 / sqrt (2^e)]: [(t - 1)^2 * 2^e < 2^32 < (t + 1)^2 * 2^e]; at an
    even exponent the entry is exact, [t^2 * 2^e = 2^32]. *)
Theorem rsqrt_table_entries_accurate (e : Z) :
  0 <= e <= 31 ->
  let t := table_at e in
  (t - 1) * (t - 1) * 2 ^ e < 2 ^ 32 < (t + 1) * (t + 1) * 2 ^ e /\
  (Z.even e = true -> t * t * 2 ^ e = 2 ^ 32).
Proof.
  intros He.
  assert (Hn : (Z.to_nat e <= 31)%nat) by lia.
  replace e with (Z.of_nat (Z.to_nat e)) by lia.
  generalize dependent (Z.to_nat e). clear He e. intros n Hn.
  do 32 (destruct n as [|n];
         [vm_compute; repeat split; congruence|]).
  lia.
Qed.

Lemma rsqrt_table_entries_accurate_witness :
  0 <= 29 <= 31 /\ table_at 29 = 3 /\
  (3 - 1) * (3 - 1) * 2 ^ 29 < 2 ^ 32 < (3 + 1) * (3 + 1) * 2 ^ 29.
Proof.
  assert (H : 0 <= 29 <= 31) by (split; discriminate).
  split; [exact H|]. split; [reflexivity|].
  exact (proj1 (rsqrt_table_entries_accurate 29 H)).
Defined.

(** * One Newton step, analytically *)

Section Newton.

(** [a * (3k - a)^2 <= 4 k^3] for [0 <= a <= 3k]: the real Newton map for
    the reciprocal square root never exceeds the root. *)
Lemma cubic_bound (k a : Z) :
  0 <= a <= 3 * k -> a * ((3 * k - a) * (3 * k - a)) <= 4 * (k * (k * k)).
Proof.
  intros Ha.
  assert (E : 4 * (k * (k * k)) - a * ((3 * k - a) * (3 * k - a))
              = (k - a) * (k - a) * (4 * k - a)) by ring.
  assert (0 <= (k - a) * (k - a) * (4 * k - a)).
  { apply Z.mul_nonneg_nonneg; [apply Z.square_nonneg | lia]. }
  lia.
Qed.

Lemma newton_exact_bounds (y x : Z) :
  0 <= y -> 0 <= x -> x * (y * y) <= 3 * 2 ^ 32 ->
  0 <= newton_exact y x /\
  newton_exact y x * 2 ^ 33 <= y * (3 * 2 ^ 32 - x * (y * y)) /\
  y * (3 * 2 ^ 32 - x * (y * y)) < (newton_exact y x + 1) * 2 ^ 33.
Proof.
  intros Hy Hx Hxy. unfold newton_exact.
  rewrite Z.shiftr_div_pow2 by lia. change three_q32 with (3 * 2 ^ 32).
  set (p := y * (3 * 2 ^ 32 - x * (y * y))).
  assert (Hp : 0 <= p) by (apply Z.mul_nonneg_nonneg; lia).
  pose proof (Z.div_pos p (2 ^ 33) Hp).
  pose proof (Z.mul_div_le p (2 ^ 33)).
  pose proof (Z.mul_succ_div_gt p (2 ^ 33)).
  lia.
Qed.

Lemma newton_exact_no_overshoot (y x : Z) :
  0 <= y -> 0 <= x -> x * (y * y) <= 3 * 2 ^ 32 ->
  newton_exact y x * newton_exact y x * x <= 2 ^ 32.
Proof.
  intros Hy Hx Hxy.
  destruct (newton_exact_bounds y x Hy Hx Hxy) as (Hn & Hlo & _).
  set (n := newton_exact y x) in *.
  set (a := x * (y * y)) in *.
  assert (Ha : 0 <= a) by (apply Z.mul_nonneg_nonneg; [lia | apply Z.square_nonneg]).
  set (t := 3 * 2 ^ 32 - a) in *.
  (* (n * 2^33)^2 <= (y * t)^2 *)
  assert (Hsq : (n * 2 ^ 33) * (n * 2 ^ 33) <= (y * t) * (y * t))
    by (apply Z.mul_le_mono_nonneg; lia).
  assert (Hx2 : (n * 2 ^ 33) * (n * 2 ^ 33) * x <= (y * t) * (y * t) * x)
    by (apply Z.mul_le_mono_nonneg_r; lia).
  assert (Hat : (y * t) * (y * t) * x = a * (t * t)) by (unfold a; ring).
  pose proof (cubic_bound (2 ^ 32) a) as Hc.
  fold t in Hc. specialize (Hc (conj Ha Hxy)).
  assert (H66 : (n * 2 ^ 33) * (n * 2 ^ 33) * x = (n * n * x) * 2 ^ 66)
    by (change (2 ^ 66) with (2 ^ 33 * 2 ^ 33); ring).
  change (4 * (2 ^ 32 * (2 ^ 32 * 2 ^ 32))) with (2 ^ 32 * 2 ^ 66) in Hc.
  assert (Hfin : (n * n * x) * 2 ^ 66 <= 2 ^ 32 * 2 ^ 66) by lia.
  apply Z.mul_le_mono_pos_r in Hfin; [exact Hfin | reflexivity].
Qed.

Lemma newton_exact_from_below (y x : Z) :
  0 <= y -> 0 <= x -> x * (y * y) <= 2 ^ 32 -> y <= newton_exact y x.
Proof.
  intros Hy Hx Hxy. unfold newton_exact.
  rewrite Z.shiftr_div_pow2 by lia. change three_q32 with (3 * 2 ^ 32).
  apply Z.div_le_lower_bound; [reflexivity|].
  change (2 ^ 33) with (2 * 2 ^ 32).
  assert (y * (2 * 2 ^ 32) <= y * (3 * 2 ^ 32 - x * (y * y)))
    by (apply Z.mul_le_mono_nonneg_l; lia).
  lia.
Qed.

Lemma square_le_65536 (y x : Z) :
  0 <= y -> 1 <= x -> y * y * x <= 2 ^ 32 -> y <= 65536.
Proof.
  intros Hy Hx H.
  destruct (Z_le_gt_dec y 65536) as [|Hgt]; [assumption|exfalso].
  assert (65537 * 65537 <= y * y) by (apply Z.mul_le_mono_nonneg; lia).
  assert (y * y * 1 <= y * y * x) by (apply Z.mul_le_mono_nonneg_l; lia).
  lia.
Qed.

End Newton.

(** X5: when [x * y^2 <= 3 * 2^32] (the subtraction does not wrap), one
    Newton step returns [floor (y * (3 * 2^32 - x * y^2) / 2^33)] and never
    overshoots the root: the result [y'] satisfies [y'^2 * x <= 2^32]. *)
Theorem q16_newton_step_no_overshoot (y x : Z) :
  0 <= y <= 2 ^ 16 -> 0 <= x < 2 ^ 32 -> x * (y * y) <= 3 * 2 ^ 32 ->
  let y' := q16_newton_step y x in
  y' = (y * (3 * 2 ^ 32 - x * (y * y))) / 2 ^ 33 /\
  0 <= y' /\
  y' * y' * x <= 2 ^ 32.
Proof.
  intros Hy Hx Hxy y'. subst y'.
  rewrite q16_newton_step_exact by assumption.
  split; [|split].
  - unfold newton_exact. now rewrite Z.shiftr_div_pow2 by lia.
  - destruct (newton_exact_bounds y x) as (H & _); [lia | lia | lia | exact H].
  - apply newton_exact_no_overshoot; lia.
Qed.

Lemma q16_newton_step_no_overshoot_witness :
  14 * (18081 * 18081) <= 3 * 2 ^ 32 /\
  q16_newton_step 18081 14 * q16_newton_step 18081 14 * 14 <= 2 ^ 32.
Proof.
  assert (Hy : 0 <= 18081 <= 2 ^ 16) by (split; discriminate).
  assert (Hx : 0 <= 14 < 2 ^ 32) by (split; [discriminate | reflexivity]).
  assert (H : 14 * (18081 * 18081) <= 3 * 2 ^ 32) by discriminate.
  split; [exact H|].
  exact (proj2 (proj2 (q16_newton_step_no_overshoot 18081 14 Hy Hx H))).
Defined.

(** X6: from an estimate that does not exceed the root,
    [x * y^2 <= 2^32], a Newton step never moves down, and it leaves an
    exact estimate, [x * y^2 = 2^32], unchanged. *)
Theorem q16_newton_step_from_below (y x : Z) :
  0 <= y <= 2 ^ 16 -> 0 <= x < 2 ^ 32 -> x * (y * y) <= 2 ^ 32 ->
  y <= q16_newton_step y x /\
  (x * (y * y) = 2 ^ 32 -> q16_newton_step y x = y).
Proof.
  intros Hy Hx Hxy.
  rewrite q16_newton_step_exact by lia.
  split.
  - apply newton_exact_from_below; lia.
  - intros E.
    pose proof (newton_exact_from_below y x) as Hlo.
    pose proof (newton_exact_no_overshoot y x) as Hhi.
    set (n := newton_exact y x) in *.
    assert (Hn : y <= n) by (apply Hlo; lia).
    assert (Hs : n * n * x <= 2 ^ 32) by (apply Hhi; lia).
    destruct (Z.eq_dec n y) as [|Hne]; [assumption|exfalso].
    assert (Hx0 : 0 < x) by (destruct (Z.eq_dec x 0); [subst; lia | lia]).
    assert ((y + 1) * (y + 1) <= n * n) by (apply Z.mul_le_mono_nonneg; lia).
    assert ((y + 1) * (y + 1) * x <= n * n * x)
      by (apply Z.mul_le_mono_nonneg_r; lia).
    assert (y * y * x < (y + 1) * (y + 1) * x)
      by (apply Z.mul_lt_mono_pos_r; lia).
    lia.
Qed.

Lemma q16_newton_step_from_below_witness :
  16 * (16384 * 16384) <= 2 ^ 32 /\ q16_newton_step 16384 16 = 16384.
Proof.
  assert (Hy : 0 <= 16384 <= 2 ^ 16) by (split; discriminate).
  assert (Hx : 0 <= 16 < 2 ^ 32) by (split; [discriminate | reflexivity]).
  assert (H : 16 * (16384 * 16384) <= 2 ^ 32) by discriminate.
  split; [exact H|].
  apply (proj2 (q16_newton_step_from_below 16384 16 Hy Hx H)). reflexivity.
Defined.

(** * [fast_rsqrt] without wrap-around *)

Section NoWrap.

Lemma table_sq_bound (e : Z) :
  0 <= e <= 31 -> 2 ^ (e + 1) * (table_at e * table_at e) <= 3 * 2 ^ 32.
Proof.
  intros He.
  assert (Hn : (Z.to_nat e <= 31)%nat) by lia.
  replace e with (Z.of_nat (Z.to_nat e)) by lia.
  generalize dependent (Z.to_nat e). clear He e. intros n Hn.
  do 32 (destruct n as [|n]; [discriminate|]).
  lia.
Qed.

(** Inside a bucket the seed lies between the two table entries. *)
Lemma rsqrt_seed_between (e x : Z) :
  0 <= e <= 30 -> 2 ^ e <= x < 2 ^ (e + 1) ->
  table_at (e + 1) <= rsqrt_seed x <= table_at e.
Proof.
  intros He Hx.
  destruct (rsqrt_seed_bucket e x) as (-> & _); [lia | lia |].
  rewrite seed_exact_div by lia.
  destruct (rsqrt_frac_bucket e x He Hx) as (Hfr & Hfb). rewrite <- Hfr.
  destruct (table_bounds e He) as ((_ & Hd) & _).
  set (tb := table_at e) in *. set (tn := table_at (e + 1)) in *.
  set (fr := rsqrt_frac x) in *.
  assert (Hprod : 0 <= (tb - tn) * fr <= (tb - tn) * 2 ^ 16) by nia.
  assert (Hq : 0 <= (tb - tn) * fr / 2 ^ 16 <= tb - tn).
  { split.
    - apply Z.div_pos; lia.
    - apply Z.div_le_upper_bound; lia. }
  lia.
Qed.

Lemma rsqrt_seed_le_table (x : Z) :
  0 < x < 2 ^ 32 -> 1 <= rsqrt_seed x <= table_at (Z.log2 x).
Proof.
  intros Hx. destruct (log2_bucket x Hx) as (He & Hb).
  destruct (rsqrt_seed_bucket _ x He Hb) as (_ & Hr).
  split; [lia|].
  destruct (Z.eq_dec (Z.log2 x) 31) as [E|Hne].
  - rewrite E in *. change (31 + 1) with 32 in Hb.
    rewrite rsqrt_seed_top by lia. reflexivity.
  - apply rsqrt_seed_between; lia.
Qed.

Lemma rsqrt_seed_sq_bound (x : Z) :
  0 < x < 2 ^ 32 -> x * (rsqrt_seed x * rsqrt_seed x) <= 3 * 2 ^ 32.
Proof.
  intros Hx. destruct (log2_bucket x Hx) as (He & Hb).
  destruct (rsqrt_seed_le_table x Hx) as (Hs1 & Hs2).
  pose proof (table_sq_bound _ He) as Ht.
  set (e := Z.log2 x) in *. set (s := rsqrt_seed x) in *.
  set (t := table_at e) in *.
  assert (Hss : s * s <= t * t) by (apply Z.mul_le_mono_nonneg; lia).
  assert (H1 : x * (s * s) <= x * (t * t))
    by (apply Z.mul_le_mono_nonneg_l; lia).
  assert (H2 : x * (t * t) <= 2 ^ (e + 1) * (t * t)).
  { apply Z.mul_le_mono_nonneg_r; [apply Z.square_nonneg | lia]. }
  lia.
Qed.

Lemma pieces_positive_checked :
  run_check (forallb positive_on) (cover_buckets 0 32) = true.
Proof. vm_compute. reflexivity. Qed.

Lemma fast_rsqrt_positive (x : Z) :
  0 < x < 2 ^ 32 -> 1 <= fast_rsqrt x /\ 65536 <= fast_rsqrt x * x.
Proof.
  intros Hx.
  destruct (all_buckets_sound _ pieces_positive_checked) as (l & E & H).
  destruct (tiles_forall fast_rsqrt positive_on l 1 (2 ^ 32 - 1) E H x)
    as (a & b & Hab & Hq); [lia|].
  unfold positive_on in Hq. apply andb_true_iff in Hq.
  destruct Hq as (Hv & Hva). apply Z.leb_le in Hv, Hva.
  split; [assumption|].
  assert (fast_rsqrt x * a <= fast_rsqrt x * x)
    by (apply Z.mul_le_mono_nonneg_l; lia).
  lia.
Qed.

Lemma fast_rsqrt_steps (x : Z) :
  0 < x < 2 ^ 32 ->
  let s := rsqrt_seed x in
  let y1 := q16_newton_step s x in
  x * (s * s) <= 3 * 2 ^ 32 /\
  0 <= y1 <= 65536 /\
  x * (y1 * y1) <= 2 ^ 32 /\
  y1 <= fast_rsqrt x /\
  fast_rsqrt x = newton_exact (newton_exact s x) x /\
  fast_rsqrt x * fast_rsqrt x * x <= 2 ^ 32.
Proof.
  intros Hx s y1.
  pose proof (rsqrt_seed_sq_bound x Hx) as Hs. fold s in Hs.
  destruct (rsqrt_seed_le_table x Hx) as (Hs1 & _). fold s in Hs1.
  assert (Hs2 : s <= 65536).
  { destruct (log2_bucket x Hx) as (He & Hb).
    destruct (rsqrt_seed_bucket _ x He Hb) as (_ & Hr). fold s in Hr. lia. }
  assert (E1 : y1 = newton_exact s x)
    by (unfold y1; apply q16_newton_step_exact; lia).
  assert (H1 : y1 * y1 * x <= 2 ^ 32)
    by (rewrite E1; apply newton_exact_no_overshoot; lia).
  assert (H0 : 0 <= y1)
    by (rewrite E1; destruct (newton_exact_bounds s x) as (H & _); lia).
  assert (Hy1 : y1 <= 65536) by (apply (square_le_65536 y1 x); lia).
  assert (H1' : x * (y1 * y1) <= 2 ^ 32) by lia.
  assert (E2 : fast_rsqrt x = newton_exact y1 x).
  { rewrite fast_rsqrt_unfold by lia. fold s. fold y1.
    apply q16_newton_step_exact; lia. }
  repeat split; try lia.
  - rewrite E2. apply newton_exact_from_below; lia.
  - rewrite E2, E1. reflexivity.
  - rewrite E2. apply newton_exact_no_overshoot; lia.
Qed.

End NoWrap.

(** * No reduction in [fast_rsqrt] changes a value *)

Section InRange.

Lemma clz_step_unbounded_inv (s w x0 B : Z) (st : Z * Z) :
  0 < w <= s -> s + w = 32 ->
  0 <= fst st <= B -> B + w < 2 ^ 32 ->
  snd st = x0 * 2 ^ fst st ->
  2 ^ (s - w) <= snd st < 2 ^ 32 ->
  clz_step s w st = clz_step_unbounded s w st /\
  0 <= fst (clz_step_unbounded s w st) <= B + w /\
  snd (clz_step_unbounded s w st) = x0 * 2 ^ fst (clz_step_unbounded s w st) /\
  2 ^ s <= snd (clz_step_unbounded s w st) < 2 ^ 32.
Proof.
  destruct st as [n x]. cbn [fst snd]. intros Hw Hsw Hn HB Hx Hr.
  assert (E : clz_step s w (n, x) = clz_step_unbounded s w (n, x)).
  { assert (Hs : 0 < 2 ^ s) by (apply pow2_pos; lia).
    assert (Hp : 0 < 2 ^ (s - w)) by (apply pow2_pos; lia).
    assert (Hww : 0 < 2 ^ w) by (apply pow2_pos; lia).
    assert (H32 : 2 ^ 32 = 2 ^ s * 2 ^ w)
      by (rewrite <- Z.pow_add_r by lia; f_equal; lia).
    unfold clz_step, clz_step_unbounded. rewrite Z.shiftr_div_pow2 by lia.
    destruct (Z.eqb_spec (x / 2 ^ s) 0) as [E|E]; [|reflexivity].
    apply div_zero_lt in E; try lia.
    rewrite (u32_small (n + w)) by lia.
    rewrite Z.shiftl_mul_pow2 by lia.
    rewrite u32_small by (split; [nia | rewrite H32; nia]).
    reflexivity. }
  split; [exact E|]. rewrite <- E.
  apply (clz_step_inv s w x0 n x B); assumption.
Qed.

Lemma clz_in_range_holds (x : Z) : 0 < x < 2 ^ 32 -> clz_in_range x.
Proof.
  intros Hx. unfold clz_in_range. cbv zeta.
  destruct (clz_step_unbounded_inv 16 16 x 0 (0, x)) as (E1 & Hn1 & Hx1 & Hr1);
    [lia | lia | cbn [fst]; lia | lia
    | cbn [fst snd]; rewrite Z.pow_0_r; ring
    | cbn [snd]; change (2 ^ (16 - 16)) with 1; lia |].
  set (st1 := clz_step_unbounded 16 16 (0, x)) in *.
  destruct (clz_step_unbounded_inv 24 8 x 16 st1) as (E2 & Hn2 & Hx2 & Hr2);
    [lia | lia | lia | lia | exact Hx1 | exact Hr1 |].
  set (st2 := clz_step_unbounded 24 8 st1) in *.
  destruct (clz_step_unbounded_inv 28 4 x 24 st2) as (E3 & Hn3 & Hx3 & Hr3);
    [lia | lia | lia | lia | exact Hx2 | exact Hr2 |].
  set (st3 := clz_step_unbounded 28 4 st2) in *.
  destruct (clz_step_unbounded_inv 30 2 x 28 st3) as (E4 & Hn4 & Hx4 & Hr4);
    [lia | lia | lia | lia | exact Hx3 | exact Hr3 |].
  set (st4 := clz_step_unbounded 30 2 st3) in *.
  repeat split; try assumption; lia.
Qed.

Lemma newton_in_range_holds (y x : Z) :
  0 <= y <= 2 ^ 16 -> 0 <= x < 2 ^ 32 -> x * (y * y) <= 3 * 2 ^ 32 ->
  newton_in_range y x.
Proof.
  intros Hy Hx Hxy. unfold newton_in_range. cbv zeta.
  change (Z.shiftl 3 32) with (3 * 2 ^ 32).
  assert (Hyy : 0 <= y * y <= 2 ^ 32) by nia.
  assert (Hxyy : 0 <= x * (y * y)) by nia.
  set (term := 3 * 2 ^ 32 - x * (y * y)) in *.
  assert (Hp : 0 <= y * term <= 2 ^ 16 * (3 * 2 ^ 32)) by nia.
  assert (Hq : 0 <= Z.shiftr (y * term) 33 < 2 ^ 32).
  { rewrite Z.shiftr_div_pow2 by lia. split.
    - apply Z.div_pos; lia.
    - apply Z.div_lt_upper_bound; lia. }
  repeat split; try lia.
  rewrite q16_newton_step_exact by lia. reflexivity.
Qed.

Lemma seed_in_range_holds (x : Z) : 0 < x < 2 ^ 32 -> seed_in_range x.
Proof.
  intros Hx. unfold seed_in_range. cbv zeta.
  destruct (clz32_inv x Hx) as (Hn & _).
  destruct (rsqrt_exp_bucket x Hx) as (He & Hb).
  assert (Ee : rsqrt_exp x = 31 - clz32 x)
    by (unfold rsqrt_exp; apply u32_small; lia).
  rewrite Ee in He, Hb.
  assert (Eone : rsqrt_one_exp x
                 = if 31 - clz32 x <? 31 then Z.shiftl 1 (31 - clz32 x) else 0).
  { unfold rsqrt_one_exp. rewrite Ee.
    destruct (Z.ltb_spec (31 - clz32 x) 31) as [Hlt|]; [|reflexivity].
    apply u32_small. rewrite Z.shiftl_mul_pow2, Z.mul_1_l by lia.
    assert (2 ^ (31 - clz32 x) <= 2 ^ 30) by (apply pow2_le; lia).
    assert (0 < 2 ^ (31 - clz32 x)) by (apply pow2_pos; lia). lia. }
  set (e := 31 - clz32 x) in *. clearbody e. clear Hn.
  assert (Hp : 0 < 2 ^ e) by (apply pow2_pos; lia).
  rewrite (Z.shiftl_mul_pow2 _ 16) by lia.
  rewrite !Z.shiftr_div_pow2 by lia.
  destruct (Z.ltb_spec e 31) as [Hlt|Hge].
  - (* a bucket below the top one *)
    rewrite (Z.shiftl_mul_pow2 1 e), Z.mul_1_l in * by lia.
    assert (H30 : 2 ^ e <= 2 ^ 30) by (apply pow2_le; lia).
    assert (Hs : 2 ^ (e + 1) = 2 * 2 ^ e)
      by (rewrite Z.pow_add_r by lia; change (2 ^ 1) with 2; ring).
    destruct (rsqrt_frac_bucket e x) as (Hfr & Hfb); [lia | lia |].
    destruct (table_bounds e) as ((Ht1 & Ht2) & Ht3); [lia|].
    destruct (rsqrt_seed_bucket e x) as (Hse & Hsr); [lia | lia |].
    rewrite seed_exact_div in Hse by lia.
    rewrite <- Hfr in *.
    set (fr := rsqrt_frac x) in *.
    set (tb := table_at e) in *. set (tn := table_at (e + 1)) in *.
    assert (Hprod : 0 <= (tb - tn) * fr <= (tb - tn) * 2 ^ 16) by nia.
    assert (Hq : 0 <= (tb - tn) * fr / 2 ^ 16 <= tb - tn).
    { split.
      - apply Z.div_pos; lia.
      - apply Z.div_le_upper_bound; lia. }
    repeat split; try lia; try assumption.
  - (* the top bucket *)
    assert (E31 : e = 31) by lia. rewrite E31 in *. clear E31 e.
    change (31 + 1) with 32 in Hb.
    destruct (rsqrt_frac_top x) as (Hfr & Hfb); [lia|].
    rewrite Z.sub_0_r.
    assert (Hfq : x * 2 ^ 16 / 2 ^ 31 = x / 2 ^ 15).
    { change (2 ^ 31) with (2 ^ 15 * 2 ^ 16).
      now rewrite Z.div_mul_cancel_r by lia. }
    rewrite Hfq, <- Hfr.
    change (table_at 31) with 1. change (1 - 1) with 0.
    rewrite Z.mul_0_l. change (0 / 2 ^ 16) with 0. change (1 - 0) with 1.
    rewrite (rsqrt_seed_top x) by lia.
    repeat split; try lia; try assumption.
Qed.

End InRange.

(** X7: in [fast_rsqrt] no reduction modulo 2^32 or 2^64 changes a value,
    for any nonzero 32-bit argument.  Every local of [clz32], of the
    interpolation ([exp], [one_exp], [diff], [frac64], [frac], [delta],
    [interp], [y]) and of both calls of [q16_newton_step] ([y2],
    [x * y2], [term], [prod], the shifted result), computed over unbounded
    integers, lies in the range of its C type and is the value the code
    computes.  The first Newton step lands at or below the root, the
    second does not move down, and the result is the whole computation
    over unbounded integers. *)
Theorem fast_rsqrt_never_wraps (x : Z) :
  0 < x < 2 ^ 32 ->
  let s := rsqrt_seed x in
  let y1 := q16_newton_step s x in
  clz_in_range x /\
  seed_in_range x /\
  newton_in_range s x /\
  newton_in_range y1 x /\
  x * (s * s) <= 3 * 2 ^ 32 /\
  x * (y1 * y1) <= 2 ^ 32 /\
  y1 <= fast_rsqrt x /\
  fast_rsqrt x = newton_exact (newton_exact s x) x /\
  s = seed_exact (31 - clz32 x) x.
Proof.
  intros Hx s y1. subst y1 s.
  destruct (fast_rsqrt_steps x Hx) as (H1 & Hy1 & H2 & H3 & H4 & _).
  destruct (log2_bucket x Hx) as (He & Hb).
  destruct (rsqrt_seed_bucket _ x He Hb) as (Hse & Hsr).
  split; [now apply clz_in_range_holds|].
  split; [now apply seed_in_range_holds|].
  split; [apply newton_in_range_holds; lia|].
  split; [apply newton_in_range_holds; lia|].
  repeat split; try assumption.
  rewrite Hse. f_equal. rewrite clz32_log2 by assumption. lia.
Qed.

Lemma fast_rsqrt_never_wraps_witness :
  0 < 1000000 < 2 ^ 32 /\
  seed_in_range 1000000 /\
  1000000 * (rsqrt_seed 1000000 * rsqrt_seed 1000000) <= 3 * 2 ^ 32.
Proof.
  assert (H : 0 < 1000000 < 2 ^ 32) by (split; reflexivity).
  split; [exact H|].
  destruct (fast_rsqrt_never_wraps 1000000 H) as (_ & Hs & _ & _ & Hb & _).
  split; [exact Hs | exact Hb].
Defined.

(** X8: for a nonzero 32-bit argument the result lies in [1, 65536]; so
    over the 32-bit arguments the saturated value [0xFFFFFFFF] is returned
    for 0 and for nothing else, and 0 is never returned. *)
Theorem fast_rsqrt_range (x : Z) :
  0 <= x < 2 ^ 32 ->
  (x <> 0 -> 1 <= fast_rsqrt x <= 65536) /\
  (fast_rsqrt x = 0xFFFFFFFF <-> x = 0) /\
  fast_rsqrt x <> 0.
Proof.
  intros Hx.
  assert (Hr : x <> 0 -> 1 <= fast_rsqrt x <= 65536).
  { intros Hne. assert (Hx' : 0 < x < 2 ^ 32) by lia.
    destruct (fast_rsqrt_positive x Hx') as (Hp & _).
    destruct (fast_rsqrt_steps x Hx') as (_ & _ & _ & _ & _ & Hs).
    split; [assumption|]. apply (square_le_65536 _ x); lia. }
  split; [exact Hr|].
  destruct (Z.eq_dec x 0) as [->|Hne].
  - change (fast_rsqrt 0) with 4294967295. repeat split; lia.
  - specialize (Hr Hne). repeat split; lia.
Qed.

Lemma fast_rsqrt_range_witness :
  0 <= 4294967295 < 2 ^ 32 /\ 1 <= fast_rsqrt 4294967295 <= 65536.
Proof.
  assert (H : 0 <= 4294967295 < 2 ^ 32) by (split; [discriminate | reflexivity]).
  split; [exact H|].
  apply (proj1 (fast_rsqrt_range 4294967295 H)). discriminate.
Defined.

(** X9: at the powers of four the result is exact:
    [fast_rsqrt (4^k) = 2^(16 - k)] for [k = 0 .. 15]. *)
Theorem fast_rsqrt_power_of_four (k : Z) :
  0 <= k <= 15 -> fast_rsqrt (4 ^ k) = 2 ^ (16 - k).
Proof.
  intros Hk.
  assert (Hn : (Z.to_nat k <= 15)%nat) by lia.
  replace k with (Z.of_nat (Z.to_nat k)) by lia.
  generalize dependent (Z.to_nat k). clear Hk k. intros n Hn.
  do 16 (destruct n as [|n]; [vm_compute; reflexivity|]).
  lia.
Qed.

Lemma fast_rsqrt_power_of_four_witness :
  0 <= 2 <= 15 /\ fast_rsqrt 16 = 16384.
Proof.
  assert (H : 0 <= 2 <= 15) by (split; discriminate).
  split; [exact H | exact (fast_rsqrt_power_of_four 2 H)].
Defined.

(** X10: in a bucket [e < 31] the interpolated seed lies between the two
    table entries, equals [rsqrt_table[e]] at [x = 2^e], and does not
    increase with [x]. *)
Theorem rsqrt_seed_interpolates (e x x' : Z) :
  0 <= e <= 30 -> 2 ^ e <= x -> x <= x' -> x' < 2 ^ (e + 1) ->
  rsqrt_seed (2 ^ e) = table_at e /\
  table_at (e + 1) <= rsqrt_seed x' /\
  rsqrt_seed x' <= rsqrt_seed x /\
  rsqrt_seed x <= table_at e.
Proof.
  intros He Hlo Hxx Hhi.
  assert (Hp : 0 < 2 ^ e) by (apply pow2_pos; lia).
  assert (Hs : 2 ^ (e + 1) = 2 * 2 ^ e)
    by (rewrite Z.pow_add_r by lia; change (2 ^ 1) with 2; ring).
  destruct (rsqrt_seed_between e x) as (_ & Hx2); [lia | lia |].
  destruct (rsqrt_seed_between e x') as (Hx1 & _); [lia | lia |].
  repeat split; try assumption.
  - destruct (rsqrt_seed_bucket e (2 ^ e)) as (-> & _); [lia | lia |].
    rewrite seed_exact_div by lia.
    rewrite Z.sub_diag, Z.mul_0_l, Z.div_0_l, Z.mul_0_r, Z.div_0_l by lia.
    lia.
  - destruct (rsqrt_seed_bucket e x) as (-> & _); [lia | lia |].
    destruct (rsqrt_seed_bucket e x') as (-> & _); [lia | lia |].
    apply seed_exact_antitone; lia.
Qed.

Lemma rsqrt_seed_interpolates_witness :
  rsqrt_seed 8 = 23170 /\ 16384 <= rsqrt_seed 14 /\
  rsqrt_seed 14 <= rsqrt_seed 10.
Proof.
  assert (H1 : 0 <= 3 <= 30) by (split; discriminate).
  assert (H2 : 2 ^ 3 <= 10) by discriminate.
  assert (H3 : 10 <= 14) by discriminate.
  assert (H4 : 14 < 2 ^ (3 + 1)) by reflexivity.
  destruct (rsqrt_seed_interpolates 3 10 14 H1 H2 H3 H4) as (Ha & Hb & Hc & _).
  split; [exact Ha|]. split; [exact Hb | exact Hc].
Defined.

(** * [dist3] as a function of the sum of squares *)

Section DistMore.

Lemma sum_sq64_mod (x y z : Z) :
  sum_sq64 x y z = (x * x + y * y + z * z) mod 2 ^ 64.
Proof.
  unfold sum_sq64, u64.
  rewrite <- !Z.mul_mod by lia.
  rewrite <- (Z.add_mod (x * x) (y * y)) by lia.
  now rewrite <- Z.add_mod by lia.
Qed.

Lemma dist3_as_sum (x y z : Z) :
  is_i32 x -> is_i32 y -> is_i32 z ->
  dist3 x y z = dist3_of_sum (Z.min (x * x + y * y + z * z) 0xFFFFFFFF).
Proof.
  intros Hx Hy Hz.
  cbv beta zeta delta [dist3 dist3_of_sum].
  rewrite (sum_sq64_exact x y z Hx Hy Hz), Z.gtb_ltb.
  destruct (Z.ltb_spec 0xFFFFFFFF (x * x + y * y + z * z)) as [H|H].
  - now rewrite Z.min_r by lia.
  - now rewrite Z.min_l by lia.
Qed.

Lemma fast_rsqrt_close (x : Z) :
  0 < x < 2 ^ 32 ->
  2 ^ 32 < (fast_rsqrt x + 2) * (fast_rsqrt x + 2) * x.
Proof.
  intros Hx.
  destruct (all_buckets_sound _ pieces_accurate_checked) as (l & E & H).
  destruct (tiles_forall fast_rsqrt accurate_on l 1 (2 ^ 32 - 1) E H x)
    as (a & b & Hab & Hq); [lia|].
  unfold accurate_on in Hq.
  rewrite !andb_true_iff in Hq. destruct Hq as ((Hy & _) & Hhi).
  apply Z.leb_le in Hy. apply Z.ltb_lt in Hhi.
  set (y := fast_rsqrt x) in *.
  assert ((y + 2) * (y + 2) * a <= (y + 2) * (y + 2) * x)
    by (apply Z.mul_le_mono_nonneg_l; [apply Z.square_nonneg | lia]).
  lia.
Qed.

(** For a sum in range the last lines of [dist3] compute
    [floor (fast_rsqrt s * s / 2^16)]: nothing wraps. *)
Lemma dist3_of_sum_exact (s : Z) :
  0 < s < 2 ^ 32 ->
  dist3_of_sum s = (fast_rsqrt s * s) / 2 ^ 16 /\
  0 <= dist3_of_sum s <= s.
Proof.
  intros Hs. unfold dist3_of_sum.
  rewrite (u32_small s) by lia.
  rewrite (u64_small s) by lia.
  destruct (fast_rsqrt_positive s Hs) as (Hy1 & _).
  destruct (fast_rsqrt_steps s Hs) as (_ & _ & _ & _ & _ & Hsq).
  assert (Hy2 : fast_rsqrt s <= 65536) by (apply (square_le_65536 _ s); lia).
  set (y := fast_rsqrt s) in *.
  assert (Hp : 0 <= y * s <= 65536 * s) by nia.
  rewrite (u64_small (y * s)) by lia.
  rewrite Z.shiftr_div_pow2 by lia.
  assert (Hq : 0 <= y * s / 2 ^ 16 <= s).
  { split.
    - apply Z.div_pos; lia.
    - apply Z.div_le_upper_bound; lia. }
  rewrite u32_small by lia.
  split; [reflexivity | exact Hq].
Qed.

Lemma dist3_of_sum_bounds (s : Z) :
  0 < s < 2 ^ 32 ->
  let d := dist3_of_sum s in
  1 <= d /\ d * d <= s /\
  2 ^ 32 * s < (2 ^ 16 * (d + 1) + 2 * s) * (2 ^ 16 * (d + 1) + 2 * s).
Proof.
  intros Hs d.
  destruct (dist3_of_sum_exact s Hs) as (E & Hd0 & _). fold d in E, Hd0.
  destruct (fast_rsqrt_positive s Hs) as (Hy1 & Hys).
  destruct (fast_rsqrt_steps s Hs) as (_ & _ & _ & _ & _ & Hsq).
  pose proof (fast_rsqrt_close s Hs) as Hcl.
  set (y := fast_rsqrt s) in *.
  assert (Hlo : d * 2 ^ 16 <= y * s)
    by (rewrite E, Z.mul_comm; apply Z.mul_div_le; lia).
  assert (Hhi : y * s < 2 ^ 16 * (d + 1))
    by (rewrite E; apply Z.mul_succ_div_gt; lia).
  split; [|split].
  - rewrite E. apply Z.div_le_lower_bound; lia.
  - assert (H1 : (d * 2 ^ 16) * (d * 2 ^ 16) <= (y * s) * (y * s))
      by (apply Z.mul_le_mono_nonneg; lia).
    assert (H2 : (y * s) * (y * s) = (y * y * s) * s) by ring.
    assert (H3 : (y * y * s) * s <= 2 ^ 32 * s)
      by (apply Z.mul_le_mono_nonneg_r; lia).
    assert (H4 : (d * 2 ^ 16) * (d * 2 ^ 16) = (d * d) * 2 ^ 32)
      by (change (2 ^ 32) with (2 ^ 16 * 2 ^ 16); ring).
    assert (H5 : (d * d) * 2 ^ 32 <= s * 2 ^ 32) by lia.
    apply Z.mul_le_mono_pos_r in H5; [exact H5 | reflexivity].
  - set (w := (y + 2) * s).
    assert (Hw : 0 <= w) by (apply Z.mul_nonneg_nonneg; lia).
    assert (Hu : w < 2 ^ 16 * (d + 1) + 2 * s) by (unfold w; lia).
    assert (H1 : w * w < (2 ^ 16 * (d + 1) + 2 * s) * (2 ^ 16 * (d + 1) + 2 * s))
      by (apply Z.mul_lt_mono_nonneg; lia).
    assert (H2 : w * w = ((y + 2) * (y + 2) * s) * s) by (unfold w; ring).
    assert (H3 : 2 ^ 32 * s < ((y + 2) * (y + 2) * s) * s)
      by (apply Z.mul_lt_mono_pos_r; lia).
    lia.
Qed.

Lemma sum_sq_zero (x y z : Z) :
  x * x + y * y + z * z = 0 -> x = 0 /\ y = 0 /\ z = 0.
Proof.
  intros H.
  pose proof (Z.square_nonneg x). pose proof (Z.square_nonneg y).
  pose proof (Z.square_nonneg z).
  assert (Hx : x * x = 0) by lia. assert (Hy : y * y = 0) by lia.
  assert (Hz : z * z = 0) by lia.
  apply Z.mul_eq_0 in Hx, Hy, Hz. lia.
Qed.

End DistMore.

(** X11: [dist3] ignores the sign and the order of its arguments (for all
    integers: the squares are taken modulo 2^64 before anything else). *)
Theorem dist3_symmetric (x y z : Z) :
  dist3 (- x) y z = dist3 x y z /\
  dist3 y x z = dist3 x y z /\
  dist3 x z y = dist3 x y z.
Proof.
  assert (H1 : sum_sq64 (- x) y z = sum_sq64 x y z)
    by (rewrite !sum_sq64_mod; f_equal; ring).
  assert (H2 : sum_sq64 y x z = sum_sq64 x y z)
    by (rewrite !sum_sq64_mod; f_equal; ring).
  assert (H3 : sum_sq64 x z y = sum_sq64 x y z)
    by (rewrite !sum_sq64_mod; f_equal; ring).
  cbv beta zeta delta [dist3]. rewrite H1, H2, H3. repeat split.
Qed.

(** X12: for [int32_t] arguments [dist3] never exceeds the true distance,
    [dist3^2 <= x^2 + y^2 + z^2], and the result fits in 16 bits. *)
Theorem dist3_never_overshoots (x y z : Z) :
  is_i32 x -> is_i32 y -> is_i32 z ->
  let d := dist3 x y z in
  d * d <= x * x + y * y + z * z /\ 0 <= d <= 65535.
Proof.
  intros Hx Hy Hz d. unfold d. rewrite (dist3_as_sum x y z Hx Hy Hz).
  set (s := x * x + y * y + z * z).
  assert (Hs : 0 <= s).
  { unfold s. pose proof (Z.square_nonneg x). pose proof (Z.square_nonneg y).
    pose proof (Z.square_nonneg z). lia. }
  destruct (Z.eq_dec s 0) as [E|Hne].
  - rewrite E. change (dist3_of_sum (Z.min 0 4294967295)) with 0. lia.
  - assert (Hm : 0 < Z.min s 4294967295 < 2 ^ 32) by lia.
    destruct (dist3_of_sum_bounds _ Hm) as (H1 & H2 & _).
    set (d' := dist3_of_sum (Z.min s 4294967295)) in *.
    split; [lia|]. split; [lia|].
    destruct (Z_le_gt_dec d' 65535) as [|Hgt]; [assumption|exfalso].
    assert (65536 * 65536 <= d' * d') by (apply Z.mul_le_mono_nonneg; lia).
    lia.
Qed.

Lemma dist3_never_overshoots_witness :
  dist3 3 4 0 * dist3 3 4 0 <= 3 * 3 + 4 * 4 + 0 * 0.
Proof.
  assert (H1 : is_i32 3) by (unfold is_i32; lia).
  assert (H2 : is_i32 4) by (unfold is_i32; lia).
  assert (H3 : is_i32 0) by (unfold is_i32; lia).
  exact (proj1 (dist3_never_overshoots 3 4 0 H1 H2 H3)).
Defined.

(** X13: how far below the true distance [dist3] can fall, for [int32_t]
    arguments whose sum of squares [s] fits in 32 bits:
    [sqrt s < dist3 + 1 + s / 2^15], stated without roots; in particular
    [s < (dist3 + 2)^2] whenever [s <= 32768]. *)
Theorem dist3_error_bound (x y z : Z) :
  is_i32 x -> is_i32 y -> is_i32 z ->
  let s := x * x + y * y + z * z in
  let d := dist3 x y z in
  s <= 0xFFFFFFFF ->
  2 ^ 32 * s < (2 ^ 16 * (d + 1) + 2 * s) * (2 ^ 16 * (d + 1) + 2 * s) /\
  (s <= 32768 -> s < (d + 2) * (d + 2)).
Proof.
  intros Hx Hy Hz s d Hmax. unfold d.
  rewrite (dist3_as_sum x y z Hx Hy Hz). fold s.
  assert (Hs : 0 <= s).
  { unfold s. pose proof (Z.square_nonneg x). pose proof (Z.square_nonneg y).
    pose proof (Z.square_nonneg z). lia. }
  rewrite Z.min_l by lia.
  assert (Hmain :
    2 ^ 32 * s < (2 ^ 16 * (dist3_of_sum s + 1) + 2 * s)
                 * (2 ^ 16 * (dist3_of_sum s + 1) + 2 * s)
    /\ 0 <= dist3_of_sum s).
  { destruct (Z.eq_dec s 0) as [E|Hne].
    - rewrite E. change (dist3_of_sum 0) with 0. split; [reflexivity | lia].
    - assert (Hm : 0 < s < 2 ^ 32) by lia.
      destruct (dist3_of_sum_bounds _ Hm) as (H1 & _ & H3).
      split; [exact H3 | lia]. }
  destruct Hmain as (Hmain & Hd0).
  split; [exact Hmain|].
  intros Hsmall.
  set (d' := dist3_of_sum s) in *.
  set (u := 2 ^ 16 * (d' + 1) + 2 * s) in *.
  assert (Hu : 0 <= u <= 2 ^ 16 * (d' + 2)) by (unfold u; lia).
  assert (Huu : u * u <= (2 ^ 16 * (d' + 2)) * (2 ^ 16 * (d' + 2)))
    by (apply Z.mul_le_mono_nonneg; lia).
  assert (E : (2 ^ 16 * (d' + 2)) * (2 ^ 16 * (d' + 2))
              = 2 ^ 32 * ((d' + 2) * (d' + 2)))
    by (change (2 ^ 32) with (2 ^ 16 * 2 ^ 16); ring).
  assert (Hf : 2 ^ 32 * s < 2 ^ 32 * ((d' + 2) * (d' + 2))) by lia.
  apply Z.mul_lt_mono_pos_l in Hf; [exact Hf | reflexivity].
Qed.

Lemma dist3_error_bound_witness :
  3 * 3 + 4 * 4 + 0 * 0 <= 32768 /\
  3 * 3 + 4 * 4 + 0 * 0 < (dist3 3 4 0 + 2) * (dist3 3 4 0 + 2).
Proof.
  assert (H1 : is_i32 3) by (unfold is_i32; lia).
  assert (H2 : is_i32 4) by (unfold is_i32; lia).
  assert (H3 : is_i32 0) by (unfold is_i32; lia).
  assert (H4 : 3 * 3 + 4 * 4 + 0 * 0 <= 0xFFFFFFFF) by discriminate.
  assert (H5 : 3 * 3 + 4 * 4 + 0 * 0 <= 32768) by discriminate.
  split; [exact H5|].
  exact (proj2 (dist3_error_bound 3 4 0 H1 H2 H3 H4) H5).
Defined.

(** X14: for [int32_t] arguments [dist3] returns 0 only at the origin. *)
Theorem dist3_zero_iff_origin (x y z : Z) :
  is_i32 x -> is_i32 y -> is_i32 z ->
  (dist3 x y z = 0 <-> x = 0 /\ y = 0 /\ z = 0).
Proof.
  intros Hx Hy Hz. split.
  - intros Hd. rewrite (dist3_as_sum x y z Hx Hy Hz) in Hd.
    apply sum_sq_zero.
    set (s := x * x + y * y + z * z) in *.
    assert (Hs : 0 <= s).
    { unfold s. pose proof (Z.square_nonneg x).
      pose proof (Z.square_nonneg y). pose proof (Z.square_nonneg z). lia. }
    destruct (Z.eq_dec s 0) as [|Hne]; [assumption|exfalso].
    assert (Hm : 0 < Z.min s 4294967295 < 2 ^ 32) by lia.
    destruct (dist3_of_sum_bounds _ Hm) as (H1 & _). lia.
  - intros (-> & -> & ->). reflexivity.
Qed.

Lemma dist3_zero_iff_origin_witness :
  dist3 1 0 0 <> 0.
Proof.
  assert (H1 : is_i32 1) by (unfold is_i32; lia).
  assert (H3 : is_i32 0) by (unfold is_i32; lia).
  intros E. apply (dist3_zero_iff_origin 1 0 0 H1 H3 H3) in E.
  destruct E as (E & _). discriminate E.
Defined.

(** * Console output *)

Section ConsoleFacts.

Lemma strlen_body (body rest : list Z) :
  Forall (fun c => c <> 0) body ->
  strlen (body ++ 0 :: rest) = List.length body.
Proof.
  induction 1 as [|c body Hc _ IH]; cbn [strlen app List.length].
  - reflexivity.
  - destruct (Z.eqb_spec c 0) as [|_]; [contradiction|]. now rewrite IH.
Qed.

Lemma firstn_one_skipn (i : nat) (buf : list Z) :
  (i < List.length buf)%nat ->
  exists c, firstn 1 (skipn i buf) = [c] /\
            firstn (S i) buf = firstn i buf ++ [c].
Proof.
  revert i. induction buf as [|b buf IH]; intros i Hi; cbn in Hi; [lia|].
  destruct i as [|i].
  - exists b. split; reflexivity.
  - destruct (IH i) as (c & H1 & H2); [lia|].
    exists c. split; [exact H1|].
    cbn [firstn app] in *. now rewrite H2.
Qed.

Lemma emit_digits_spec (i : nat) (buf : list Z) (tr : list syscall) :
  (i <= List.length buf)%nat ->
  emit_digits i buf tr = tr ++ byte_writes (rev (firstn i buf)).
Proof.
  revert tr. induction i as [|i IH]; intros tr Hi; cbn [emit_digits].
  - cbn. now rewrite app_nil_r.
  - destruct (firstn_one_skipn i buf) as (c & H1 & H2); [lia|].
    rewrite IH by lia. unfold write_syscall. rewrite H1, H2.
    rewrite rev_app_distr. cbn [rev app]. unfold byte_writes.
    cbn [map]. now rewrite <- app_assoc.
Qed.

Lemma fill_digits_acc (room : nat) (val : Z) (buf : list Z) :
  fill_digits room val buf = buf ++ fill_digits room val [].
Proof.
  revert val buf. induction room as [|room IH]; intros val buf;
    cbn [fill_digits].
  - now rewrite app_nil_r.
  - destruct (val =? 0); [now rewrite app_nil_r|].
    rewrite (IH _ (buf ++ _)), (IH _ ([] ++ _)).
    now rewrite <- app_assoc.
Qed.

(** The digit loop, for a value that fits in [room] digits: the buffer
    holds the decimal digits, least significant first, and ends with a
    nonzero digit. *)
Lemma fill_digits_spec (room : nat) (val : Z) :
  0 < val < 10 ^ Z.of_nat room ->
  let buf := fill_digits room val [] in
  lsd_value buf = val /\
  Forall is_digit buf /\
  (1 <= List.length buf <= room)%nat /\
  exists init c, buf = init ++ [c] /\ c <> 48.
Proof.
  revert val. induction room as [|room IH]; intros val Hv.
  - change (10 ^ Z.of_nat 0) with 1 in Hv. lia.
  - cbn [fill_digits]. destruct (Z.eqb_spec val 0) as [|_]; [lia|].
    rewrite fill_digits_acc. cbn [app].
    assert (Hm : 0 <= val mod 10 < 10) by (apply Z.mod_pos_bound; lia).
    assert (Hu : u8 (48 + val mod 10) = 48 + val mod 10)
      by (unfold u8; apply Z.mod_small; change (2 ^ 8) with 256; lia).
    rewrite Hu.
    assert (Hq : 0 <= val / 10 < 10 ^ Z.of_nat room).
    { split; [apply Z.div_pos; lia|].
      apply Z.div_lt_upper_bound; [lia|].
      rewrite Nat2Z.inj_succ, Z.pow_succ_r in Hv by lia. lia. }
    pose proof (Z.div_mod val 10) as Hdm.
    destruct (Z.eq_dec (val / 10) 0) as [E|Hne].
    + rewrite E.
      assert (Hnil : fill_digits room 0 [] = [])
        by (destruct room; reflexivity).
      rewrite Hnil. cbn [lsd_value fold_right List.length].
      repeat split; try lia.
      * constructor; [unfold is_digit; lia | constructor].
      * exists [], (48 + val mod 10). split; [reflexivity | lia].
    + destruct (IH (val / 10)) as (Hval & Hdig & Hlen & init & c & Hl & Hc);
        [lia|].
      set (rest := fill_digits room (val / 10) []) in *.
      cbn [lsd_value fold_right List.length]. fold (lsd_value rest).
      repeat split; try lia.
      * constructor; [unfold is_digit; lia | assumption].
      * exists ((48 + val mod 10) :: init), c.
        split; [now rewrite Hl | assumption].
Qed.

Lemma decimal_value_rev (buf : list Z) :
  decimal_value (rev buf) = lsd_value buf.
Proof.
  unfold decimal_value, lsd_value.
  rewrite <- (rev_involutive buf) at 2.
  now rewrite fold_left_rev_right.
Qed.

Lemma written_byte_writes (bytes : list Z) :
  written 1 (byte_writes bytes) = bytes.
Proof.
  unfold written, byte_writes.
  induction bytes as [|c bytes IH]; [reflexivity|].
  cbn [map filter fst snd List.concat]. change (1 =? 1) with true.
  cbn [map snd List.concat app]. now rewrite IH.
Qed.

(** The buffer [print_uint] fills. *)
Lemma print_uint_buf (val : Z) :
  0 <= val < 2 ^ 32 ->
  let buf := if val =? 0 then [48] else fill_digits 10 val [] in
  lsd_value buf = val /\
  Forall is_digit buf /\
  (1 <= List.length buf <= 10)%nat /\
  (val <> 0 -> exists init c, buf = init ++ [c] /\ c <> 48).
Proof.
  intros Hv. destruct (Z.eqb_spec val 0) as [->|Hne].
  - cbn. repeat split; try lia.
    constructor; [unfold is_digit; lia | constructor].
  - destruct (fill_digits_spec 10 val) as (H1 & H2 & H3 & H4).
    { change (10 ^ Z.of_nat 10) with 10000000000. lia. }
    cbv zeta iota. split; [exact H1|]. split; [exact H2|].
    split; [exact H3|]. intros _. exact H4.
Qed.

Lemma print_uint_trace (val : Z) (tr : list syscall) :
  print_uint val tr =
  tr ++ byte_writes (rev (if val =? 0 then [48] else fill_digits 10 val [])).
Proof.
  unfold print_uint. rewrite emit_digits_spec by lia.
  now rewrite firstn_all.
Qed.

Lemma print_str_trace (s : list Z) (tr : list syscall) :
  print_str s tr = tr ++ print_str s [].
Proof.
  unfold print_str. destruct (0 <? strlen s)%nat.
  - reflexivity.
  - now rewrite app_nil_r.
Qed.

End ConsoleFacts.

(** X15: [print_str] on a string with contents [body] (no zero byte)
    followed by a zero byte writes exactly [body] to descriptor 1 in one
    call, whatever is stored after the terminator; for an empty string it
    makes no call at all. *)
Theorem print_str_writes_body (body rest : list Z) (tr : list syscall) :
  Forall (fun c => c <> 0) body ->
  print_str (body ++ 0 :: rest) tr =
  match body with
  | [] => tr
  | _ :: _ => tr ++ [(1, body)]
  end.
Proof.
  intros Hb. unfold print_str. rewrite (strlen_body body rest Hb).
  destruct body as [|c body]; [reflexivity|].
  cbn [List.length Nat.ltb Nat.leb]. unfold write_syscall.
  change (S (List.length body)) with (List.length (c :: body)).
  rewrite firstn_app, firstn_all, Nat.sub_diag. cbn [firstn].
  now rewrite app_nil_r.
Qed.

Lemma print_str_writes_body_witness :
  print_str [104; 105; 0; 33] [] = [(1, [104; 105])].
Proof.
  assert (H : Forall (fun c => c <> 0) [104; 105])
    by (repeat constructor; discriminate).
  exact (print_str_writes_body [104; 105] [33] [] H).
Defined.

(** X16: [print_uint] keeps the trace so far and adds one one-byte write
    to descriptor 1 per digit: between 1 and 10 writes for a 32-bit
    value. *)
Theorem print_uint_appends_byte_writes (val : Z) (tr : list syscall) :
  0 <= val < 2 ^ 32 ->
  let digits := written 1 (print_uint val []) in
  print_uint val tr = tr ++ byte_writes digits /\
  (1 <= List.length digits <= 10)%nat.
Proof.
  intros Hv digits. subst digits.
  rewrite (print_uint_trace val []), (print_uint_trace val tr).
  cbn [app]. rewrite written_byte_writes.
  split; [reflexivity|].
  rewrite length_rev.
  destruct (print_uint_buf val Hv) as (_ & _ & Hl & _). exact Hl.
Qed.

Lemma print_uint_appends_byte_writes_witness :
  print_uint 65 [(1, [61])] = [(1, [61]); (1, [54]); (1, [53])].
Proof.
  assert (H : 0 <= 65 < 2 ^ 32) by (split; [discriminate | reflexivity]).
  exact (proj1 (print_uint_appends_byte_writes 65 [(1, [61])] H)).
Defined.

(** X17: the bytes [print_uint] writes for a 32-bit value are ASCII
    decimal digits that read back as the value, with no leading zero
    unless the value is 0 (then the single digit 0): the guard
    [pos < 10] never cuts a 32-bit value short. *)
Theorem print_uint_round_trip (val : Z) :
  0 <= val < 2 ^ 32 ->
  let digits := written 1 (print_uint val []) in
  decimal_value digits = val /\
  Forall is_digit digits /\
  (val <> 0 -> hd 0 digits <> 48) /\
  (val = 0 -> digits = [48]).
Proof.
  intros Hv digits. subst digits.
  rewrite (print_uint_trace val []). cbn [app].
  rewrite written_byte_writes.
  destruct (print_uint_buf val Hv) as (H1 & H2 & _ & H4).
  set (buf := if val =? 0 then [48] else fill_digits 10 val []) in *.
  split; [now rewrite decimal_value_rev|].
  split; [apply Forall_rev; exact H2|].
  split.
  - intros Hne. destruct (H4 Hne) as (init & c & -> & Hc).
    rewrite rev_app_distr. exact Hc.
  - intros ->. reflexivity.
Qed.

Lemma print_uint_round_trip_witness :
  0 <= 4294967295 < 2 ^ 32 /\
  decimal_value (written 1 (print_uint 4294967295 [])) = 4294967295.
Proof.
  assert (H : 0 <= 4294967295 < 2 ^ 32)
    by (split; [discriminate | reflexivity]).
  split; [exact H | exact (proj1 (print_uint_round_trip 4294967295 H))].
Defined.

(** X18: [main] keeps whatever was written before, writes only to
    descriptor 1, prints [main_text] and returns 0. *)
Theorem main_transcript (tr : list syscall) :
  exists out,
    main tr = (tr ++ out, 0) /\
    Forall (fun c => fst c = 1) out /\
    written 1 out = text main_text.
Proof.
  exists (fst (main [])). split; [|split].
  - unfold main. cbn [fold_left]. cbv zeta. cbn [fst].
    f_equal.
    repeat match goal with
    | |- context [print_str ?s ?X] =>
        lazymatch X with
        | [] => fail
        | _ => rewrite (print_str_trace s X)
        end
    | |- context [print_uint ?v ?X] =>
        lazymatch X with
        | [] => fail
        | _ => rewrite (print_uint_trace v X)
        end
    end.
    rewrite <- !app_assoc. apply (f_equal (app tr)).
    vm_compute. reflexivity.
  - apply Forall_forall. intros c Hc.
    assert (H : forallb (fun c => fst c =? 1) (fst (main [])) = true)
      by (vm_compute; reflexivity).
    rewrite forallb_forall in H. apply Z.eqb_eq. exact (H c Hc).
  - vm_compute. reflexivity.
Qed.

(** * [memcpy] *)

Section MemcpyFacts.

Lemma memcpy_loop_outside (n : nat) (d s : Z) (m : mem) (a : Z) :
  a < d \/ d + Z.of_nat n <= a -> memcpy_loop n d s m a = m a.
Proof.
  revert d s m. induction n as [|n IH]; intros d s m Ha; cbn [memcpy_loop].
  - reflexivity.
  - rewrite IH by lia. unfold store.
    destruct (Z.eqb_spec a d) as [|_]; [lia | reflexivity].
Qed.

(** After the loop, byte [i] of the destination holds what its source
    address held when it was read: the original byte, or, when the source
    address is a destination byte written earlier, that new byte. *)
Lemma memcpy_loop_dest (n : nat) (d s : Z) (m : mem) (i : Z) :
  0 <= i < Z.of_nat n ->
  memcpy_loop n d s m (d + i) =
  if (s <? d) && (d <=? s + i)
  then memcpy_loop n d s m (s + i)
  else m (s + i).
Proof.
  revert d s m i. induction n as [|n IH]; intros d s m i Hi; [lia|].
  cbn [memcpy_loop].
  destruct (Z.eq_dec i 0) as [->|Hne].
  - rewrite !Z.add_0_r.
    rewrite memcpy_loop_outside by lia.
    replace ((s <? d) && (d <=? s)) with false by lia.
    unfold store. now rewrite Z.eqb_refl.
  - replace (d + i) with (d + 1 + (i - 1)) by lia.
    rewrite IH by lia.
    replace (s + 1 + (i - 1)) with (s + i) by lia.
    replace (d + 1 <=? s + i) with (d <? s + i) by lia.
    replace (s + 1 <? d + 1) with (s <? d) by lia.
    destruct (Z.ltb_spec s d) as [Hsd|Hsd]; cbn [andb].
    + destruct (Z.ltb_spec d (s + i)) as [Hlt|Hge].
      * replace (d <=? s + i) with true by lia. reflexivity.
      * destruct (Z.leb_spec d (s + i)) as [Hle|Hgt].
        -- assert (E : s + i = d) by lia. rewrite E.
           rewrite memcpy_loop_outside by lia.
           unfold store. now rewrite Z.eqb_refl.
        -- unfold store.
           destruct (Z.eqb_spec (s + i) d) as [|_]; [lia | reflexivity].
    + unfold store.
      destruct (Z.eqb_spec (s + i) d) as [|_]; [lia | reflexivity].
Qed.

End MemcpyFacts.

(** X19: [memcpy] returns [dest], copies nothing for [n = 0], and leaves
    every byte outside [dest, dest + n) as it was. *)
Theorem memcpy_frame (dest src n : Z) (m : mem) :
  0 <= n ->
  fst (memcpy dest src n m) = dest /\
  (n = 0 -> forall a, snd (memcpy dest src n m) a = m a) /\
  (forall a, a < dest \/ dest + n <= a -> snd (memcpy dest src n m) a = m a).
Proof.
  intros Hn. unfold memcpy. cbn [fst snd].
  split; [reflexivity|]. split.
  - intros -> a. reflexivity.
  - intros a Ha. apply memcpy_loop_outside. lia.
Qed.

Lemma memcpy_frame_witness :
  snd (memcpy 10 20 3 (fun a => a)) 13 = 13.
Proof.
  assert (H : 0 <= 3) by discriminate.
  apply (proj2 (proj2 (memcpy_frame 10 20 3 (fun a => a) H))).
  right. discriminate.
Defined.

(** X20: when the destination does not start inside the source
    ([dest <= src] or [src + n <= dest]), [memcpy] copies: byte [i] of
    the destination ends up equal to the original byte [i] of the
    source. *)
Theorem memcpy_copies (dest src n : Z) (m : mem) (i : Z) :
  dest <= src \/ src + n <= dest ->
  0 <= i < n ->
  snd (memcpy dest src n m) (dest + i) = m (src + i).
Proof.
  intros Hsafe Hi. unfold memcpy. cbn [snd].
  rewrite memcpy_loop_dest by lia.
  replace ((src <? dest) && (dest <=? src + i)) with false by lia.
  reflexivity.
Qed.

Lemma memcpy_copies_witness :
  snd (memcpy 10 12 4 (fun a => 2 * a)) (10 + 3) = 2 * (12 + 3).
Proof.
  assert (H1 : 10 <= 12 \/ 12 + 4 <= 10) by (left; discriminate).
  assert (H2 : 0 <= 3 < 4) by (split; [discriminate | reflexivity]).
  exact (memcpy_copies 10 12 4 (fun a => 2 * a) 3 H1 H2).
Defined.

(** X21: when the destination starts inside the source
    ([src < dest < src + n]) the forward loop reads bytes it has already
    written: destination byte [i] ends up equal to the original source
    byte [i mod (dest - src)], so the first [dest - src] source bytes are
    repeated. *)
Theorem memcpy_forward_overlap (dest src n : Z) (m : mem) (i : Z) :
  src < dest -> dest < src + n ->
  0 <= i < n ->
  snd (memcpy dest src n m) (dest + i) = m (src + i mod (dest - src)).
Proof.
  intros Hsd Hdn Hi. unfold memcpy. cbn [snd].
  set (p := dest - src). assert (Hp : 0 < p) by (unfold p; lia).
  set (N := Z.to_nat n).
  assert (HN : Z.of_nat N = n) by (unfold N; lia).
  assert (H : forall k : nat, forall j, 0 <= j < n -> j < Z.of_nat k ->
            memcpy_loop N dest src m (dest + j) = m (src + j mod p)).
  { induction k as [|k IH]; intros j Hj Hjk; [lia|].
    rewrite memcpy_loop_dest by lia.
    destruct (Z_lt_le_dec j p) as [Hlt|Hge].
    - replace ((src <? dest) && (dest <=? src + j)) with false
        by (unfold p in Hlt; lia).
      now rewrite Z.mod_small by lia.
    - replace ((src <? dest) && (dest <=? src + j)) with true
        by (unfold p in Hge; lia).
      replace (src + j) with (dest + (j - p)) by (unfold p; lia).
      rewrite IH by lia.
      replace j with (j - p + 1 * p) at 2 by lia.
      now rewrite Z.mod_add by lia. }
  apply (H (S (Z.to_nat i))); lia.
Qed.

Lemma memcpy_forward_overlap_witness :
  snd (memcpy 11 10 4 (fun a => a)) (11 + 3) = 10.
Proof.
  assert (H1 : 10 < 11) by reflexivity.
  assert (H2 : 11 < 10 + 4) by reflexivity.
  assert (H3 : 0 <= 3 < 4) by (split; [discriminate | reflexivity]).
  exact (memcpy_forward_overlap 11 10 4 (fun a => a) 3 H1 H2 H3).
Defined.

(** * Monotonicity and the documented floor *)

Section Floor.

(** Wherever the result rises from [x] to [x + 1], the code is below the
    value its header comment documents, [floor (2^16 / sqrt x)]: even
    [fast_rsqrt x + 1] does not exceed [2^16 / sqrt x].  The rises are
    the nine [rise_points], each by 1. *)
Lemma fast_rsqrt_rise_below_floor (x : Z) :
  1 <= x -> x + 1 <= 0xFFFFFFFF ->
  fast_rsqrt x < fast_rsqrt (x + 1) ->
  In x rise_points /\
  fast_rsqrt (x + 1) = fast_rsqrt x + 1 /\
  (fast_rsqrt x + 1) * (fast_rsqrt x + 1) * x <= 2 ^ 32.
Proof.
  intros Hlo Hhi Hrise.
  destruct (fast_rsqrt_monotone_trend x Hlo Hhi) as (Hmono & Hstep & _).
  assert (Hin : In x rise_points).
  { destruct (In_dec Z.eq_dec x rise_points) as [|Hn]; [assumption|].
    specialize (Hmono Hn). lia. }
  specialize (Hstep Hin).
  split; [exact Hin|]. split; [exact Hstep|].
  rewrite <- Hstep.
  destruct (fast_rsqrt_steps (x + 1)) as (_ & _ & _ & _ & _ & Hsq); [lia|].
  assert (fast_rsqrt (x + 1) * fast_rsqrt (x + 1) * x
          <= fast_rsqrt (x + 1) * fast_rsqrt (x + 1) * (x + 1))
    by (apply Z.mul_le_mono_nonneg_l; [apply Z.square_nonneg | lia]).
  lia.
Qed.

End Floor.

(** C4: the code breaks the claim at [x = 65535].  There
    [fast_rsqrt 65535 = 255] and [fast_rsqrt (65535 + 1) = 256], so the
    result rises; the value the header comment of [fast_rsqrt] documents
    at 65535, [floor (2^16 / sqrt 65535)], is 256
    ([256^2 * 65535 <= 2^32 < 257^2 * 65535]), one more than the code
    returns. *)
Theorem fast_rsqrt_rise_at_65535 :
  fast_rsqrt 65535 = 255 /\
  fast_rsqrt (65535 + 1) = 256 /\
  ~ (fast_rsqrt (65535 + 1) <= fast_rsqrt 65535) /\
  256 * 256 * 65535 <= 2 ^ 32 < 257 * 257 * 65535 /\
  fast_rsqrt 65535 < 256.
Proof.
  assert (E1 : fast_rsqrt 65535 = 255) by (vm_compute; reflexivity).
  assert (E2 : fast_rsqrt (65535 + 1) = 256) by (vm_compute; reflexivity).
  split; [exact E1|]. split; [exact E2|].
  rewrite E1, E2. repeat split; lia.
Qed.
